(** * traceTM: a breadth-first simulator of nondeterministic Turing machines

    Shallow embedding of [traceTM-efreder3.py] ([move], [trace], [bfs]) and
    the properties of its tape operation, its level-by-level search and its
    path reconstruction.

    Python values are modelled as follows:
    - [str] is [string]; indexing and slicing are the functions of [Py];
    - a configuration [(left, state, right)] is a triple of strings;
    - the dicts [transitions] and [before] are [gmap]s keyed by tuples;
    - [queue], a list of lists indexed by depth, is a [list (list config)];
    - Python integers are [Z]; the loop index of [range(max_steps)] is a [nat];
    - a call either returns a value, raises [IndexError], or (for the [while]
      loop of [trace]) needs more iterations than the fuel it was given. *)

From Stdlib Require Import Ascii.
From stdpp Require Import gmap strings list fin_maps.

Local Open Scope Z_scope.

(** ** Outcomes of a call *)

Inductive outcome (A : Type) : Type :=
| Val (a : A)
| IndexError
| OutOfFuel.
Arguments Val {A} a.
Arguments IndexError {A}.
Arguments OutOfFuel {A}.

#[global] Instance outcome_ret : MRet outcome := fun A a => Val a.
#[global] Instance outcome_bind : MBind outcome := fun A B f m =>
  match m with
  | Val a => f a
  | IndexError => IndexError
  | OutOfFuel => OutOfFuel
  end.

(** ** Python string primitives *)

Module Py.

(** [bool(s)]: a string is true when it is not empty. *)
Definition truthy (s : string) : bool :=
  match s with
  | EmptyString => false
  | String _ _ => true
  end.

(** [s[0]] *)
Definition index0 (s : string) : outcome string :=
  match s with
  | EmptyString => IndexError
  | String c _ => Val (String c EmptyString)
  end.

(** [s[1:]] *)
Definition from1 (s : string) : string :=
  match s with
  | EmptyString => EmptyString
  | String _ r => r
  end.

(** [s[-1]] *)
Fixpoint index_last (s : string) : outcome string :=
  match s with
  | EmptyString => IndexError
  | String c r =>
      match r with
      | EmptyString => Val (String c EmptyString)
      | String _ _ => index_last r
      end
  end.

(** [s[:-1]] *)
Fixpoint but_last (s : string) : string :=
  match s with
  | EmptyString => EmptyString
  | String c r =>
      match r with
      | EmptyString => EmptyString
      | String _ _ => String c (but_last r)
      end
  end.

(** [len(s)] *)
Definition len (s : string) : Z := Z.of_nat (String.length s).

End Py.

(** ** The tape operation *)

(** The write of lines 41-44: the cell under the head is replaced. *)
Definition write (right write_char : string) : string :=
  if Py.truthy right then write_char +:+ Py.from1 right else write_char.

(** [move(left, right, write_char, direction)], lines 33-64. *)
Definition move (left right write_char direction : string)
  : outcome (string * string) :=
  let right := write right write_char in
  if String.eqb direction "R" then
    if 1 <? Py.len right then
      c ← Py.index0 right;
      mret (left +:+ c, Py.from1 right)
    else
      c ← Py.index0 right;
      mret (left +:+ c, "_")
  else
    if Py.truthy left then
      if negb (Py.truthy right) || String.eqb right "_" then
        mret (left, "_")
      else
        c ← Py.index_last left;
        mret (Py.but_last left, c +:+ right)
    else
      mret (left, "_" +:+ right).

(** The most the two sequences can grow by in one call of [move] that writes
    one symbol: the write itself adds a cell when [right] is empty. *)
Definition growth_bound (right : string) : Z :=
  if Py.truthy right then 1 else 2.

(** ** Configurations, rules and the search state *)

(** A configuration is the tuple [(left, state, right)]. *)
Definition config : Type := string * string * string.

(** A rule is the tuple [(next_state, write, direction)] stored in
    [transitions[(curr, r)]]. *)
Definition rule : Type := string * string * string.

(** The tuple [bfs] returns: [(check, depth, total, path)]. *)
Definition report : Type := bool * Z * Z * list config.

Definition state_of (c : config) : string := c.1.2.

(** The local variables of [bfs]. *)
Record bfs_state : Type := BfsState {
  total : Z;
  queue : list (list config);
  before : gmap config config
}.

(** ** Loops with early exit *)

(** One pass through a loop body either falls through to the next iteration
    or leaves the function with [return] (or an exception). *)
Inductive flow (S R : Type) : Type :=
| Continue (s : S)
| Return (r : R).
Arguments Continue {S R} s.
Arguments Return {S R} r.

(** [for x in xs: body] *)
Fixpoint for_each {A S R : Type} (body : S → A → flow S R)
  (xs : list A) (s : S) : flow S R :=
  match xs with
  | [] => Continue s
  | x :: xs' =>
      match body s x with
      | Continue s' => for_each body xs' s'
      | Return r => Return r
      end
  end.

(** A statement that may raise: an exception leaves the function. *)
Definition attempt {S A : Type} (m : outcome S) : flow S (outcome A) :=
  match m with
  | Val s => Continue s
  | IndexError => Return IndexError
  | OutOfFuel => Return OutOfFuel
  end.

(** ** Path reconstruction *)

(** The [while transition in parent] loop of lines 75-77; [fuel] bounds the
    number of iterations. *)
Fixpoint trace_loop (fuel : nat) (transition : config)
  (parent : gmap config config) (path : list config) : outcome (list config) :=
  match parent !! transition with
  | None => Val path
  | Some p =>
      match fuel with
      | O => OutOfFuel
      | S fuel' => trace_loop fuel' p parent (path ++ [p])
      end
  end.

(** [trace(transition, parent)], lines 66-78. *)
Definition trace (fuel : nat) (transition : config)
  (parent : gmap config config) : outcome (list config) :=
  path ← trace_loop fuel transition parent [transition];
  mret (reverse path).

(** ** Breadth-first search *)

(** Lines 87-89: the state [bfs] starts from. *)
Definition bfs_init (start input : string) : bfs_state :=
  {| total := 0; queue := [[("", start, input)]]; before := ∅ |}.

(** Lines 118-120 and 127-129: append to [queue[depth + 1]], record the
    parent, count the transition. *)
Definition enqueue (depth : nat) (next_transition transition : config)
  (s : bfs_state) : outcome bfs_state :=
  match queue s !! S depth with
  | None => IndexError
  | Some l =>
      Val {| total := total s + 1;
             queue := <[S depth := l ++ [next_transition]]> (queue s);
             before := <[next_transition := transition]> (before s) |}
  end.

(** Body of the loop of lines 124-129. *)
Definition apply_rule (depth : nat) (transition : config)
  (s : bfs_state) (r : rule) : flow bfs_state (outcome report) :=
  let left := transition.1.1 in
  let state := transition.1.2 in
  let right := transition.2 in
  let '(next_state, write, direction) := r in
  attempt ('(new_left, new_right) ← move left right write direction;
           enqueue depth (new_left, next_state, new_right) transition s).

(** Line 110: [right[0] if right else "_"]. *)
Definition read_head (right : string) : outcome string :=
  if Py.truthy right then Py.index0 right else Val "_".

(** Body of the loop of lines 97-129. *)
Definition visit (fuel : nat) (accept : list string) (reject : string)
  (transitions : gmap (string * string) (list rule)) (depth : nat)
  (s : bfs_state) (transition : config) : flow bfs_state (outcome report) :=
  let left := transition.1.1 in
  let state := transition.1.2 in
  let right := transition.2 in
  if bool_decide (state ∈ accept) then
    Return (path ← trace fuel transition (before s);
            mret (true, Z.of_nat depth, total s, path))
  else if String.eqb state reject then
    Continue s
  else
    match read_head right with
    | Val curr =>
        let moves := default [] (transitions !! (state, curr)) in
        match moves with
        | [] => attempt (enqueue depth (left, reject, right) transition s)
        | _ :: _ => for_each (apply_rule depth transition) moves s
        end
    | IndexError => Return IndexError
    | OutOfFuel => Return OutOfFuel
    end.

(** Body of the loop of lines 92-129. *)
Definition explore (fuel : nat) (accept : list string) (reject : string)
  (transitions : gmap (string * string) (list rule))
  (s : bfs_state) (depth : nat) : flow bfs_state (outcome report) :=
  match queue s !! depth with
  | None => Return IndexError
  | Some frontier =>
      match frontier with
      | [] => Return (Val (false, Z.of_nat depth, total s, []))
      | _ :: _ =>
          let s' := {| total := total s;
                       queue := queue s ++ [[]];
                       before := before s |} in
          for_each (visit fuel accept reject transitions depth) frontier s'
      end
  end.

(** [bfs(start, accept, reject, transitions, input, max_steps)], lines 80-131.
    [range(max_steps)] is empty when [max_steps] is not positive. *)
Definition bfs (fuel : nat) (start : string) (accept : list string)
  (reject : string) (transitions : gmap (string * string) (list rule))
  (input : string) (max_steps : Z) : outcome report :=
  match for_each (explore fuel accept reject transitions)
          (seq 0 (Z.to_nat max_steps)) (bfs_init start input) with
  | Return r => r
  | Continue s => Val (false, max_steps, total s, [])
  end.

(** ** The configuration tree, level by level *)

(** These definitions are not in the source.  They describe the tree the
    search walks, independently of the queue, the counter and the parent
    map: the successors of one configuration (what lines 105-129 generate
    for it, in order), and the frontier at each depth. *)

Definition successor (transition : config) (r : rule) : outcome config :=
  let left := transition.1.1 in
  let right := transition.2 in
  let '(next_state, write, direction) := r in
  '(new_left, new_right) ← move left right write direction;
  mret (new_left, next_state, new_right).

Fixpoint successors (transition : config) (moves : list rule)
  : outcome (list config) :=
  match moves with
  | [] => Val []
  | r :: moves' =>
      c ← successor transition r;
      cs ← successors transition moves';
      mret (c :: cs)
  end.

Definition head_symbol (right : string) : string :=
  match right with
  | EmptyString => "_"
  | String a _ => String a EmptyString
  end.

Definition expand (reject : string)
  (transitions : gmap (string * string) (list rule)) (c : config)
  : outcome (list config) :=
  let left := c.1.1 in
  let state := c.1.2 in
  let right := c.2 in
  if String.eqb state reject then Val []
  else
    match default [] (transitions !! (state, head_symbol right)) with
    | [] => Val [(left, reject, right)]
    | moves => successors c moves
    end.

Fixpoint next_level (reject : string)
  (transitions : gmap (string * string) (list rule))
  (frontier : list config) : outcome (list config) :=
  match frontier with
  | [] => Val []
  | c :: rest =>
      cs ← expand reject transitions c;
      more ← next_level reject transitions rest;
      mret (cs ++ more)
  end.

Fixpoint level (start : string) (reject : string)
  (transitions : gmap (string * string) (list rule)) (input : string)
  (n : nat) : outcome (list config) :=
  match n with
  | O => Val [("", start, input)]
  | S n' =>
      frontier ← level start reject transitions input n';
      next_level reject transitions frontier
  end.

Definition accepting (accept : list string) (c : config) : Prop :=
  state_of c ∈ accept.

(** The parent map once [parent] has been recorded for each of [children],
    in the order they were generated. *)
Definition record_parents (parent : config) (children : list config)
  (m : gmap config config) : gmap config config :=
  foldl (λ m c, <[c := parent]> m) m children.

(** The search state once the [children] of [parent] have been appended to
    the last list of the queue. *)
Definition grown (parent : config) (children : list config)
  (tot : Z) (done : list (list config)) (nxt : list config)
  (par : gmap config config) : bfs_state :=
  {| total := tot + Z.of_nat (length children);
     queue := done ++ [nxt ++ children];
     before := record_parents parent children par |}.

(** ** Sample machines *)

Module Samples.

(** Oscillates between two cells of the input "ab" and may accept on the
    way back. *)
Definition pingpong : gmap (string * string) (list rule) :=
  {[ ("q0", "a") := [("q1", "a", "R")];
     ("q1", "b") := [("q0", "b", "L"); ("qa", "b", "L")] ]}.

(** The parent map of the run of [pingpong] on "ab" when the accepting
    configuration of level 2 is reached: entries in the order lines 119
    and 128 wrote them. *)
Definition pingpong_parents : gmap config config :=
  <[("a", "q1", "b") := ("", "q0", "ab")]>
    (<[("", "qa", "ab") := ("a", "q1", "b")]>
       (<[("", "q0", "ab") := ("a", "q1", "b")]>
          (<[("a", "q1", "b") := ("", "q0", "ab")]> ∅))).

(** Steps off the input "a" and may accept at once or one step later. *)
Definition detour : gmap (string * string) (list rule) :=
  {[ ("q0", "a") := [("q1", "a", "R"); ("qa", "a", "R")];
     ("q1", "_") := [("qa", "_", "L")] ]}.

(** Accepts binary strings with an even number of 1s. *)
Definition even_ones : gmap (string * string) (list rule) :=
  {[ ("even", "0") := [("even", "0", "R")];
     ("even", "1") := [("odd", "1", "R")];
     ("odd", "0") := [("odd", "0", "R")];
     ("odd", "1") := [("even", "1", "R")];
     ("even", "_") := [("yes", "_", "R")] ]}.

End Samples.

(** ** The walk of [trace] *)

(** Not in the source: the configurations the loop of lines 75-77 visits,
    from [transition] up to the first one without an entry in [parent]. *)
Fixpoint ancestry (fuel : nat) (parent : gmap config config)
  (transition : config) : outcome (list config) :=
  match parent !! transition with
  | None => Val [transition]
  | Some p =>
      match fuel with
      | O => OutOfFuel
      | S fuel' =>
          l ← ancestry fuel' parent p;
          mret (transition :: l)
      end
  end.

(** Each element of [path] is the [parent] entry of the next one. *)
Definition linked (parent : gmap config config) (path : list config) : Prop :=
  ∀ (i : nat) (p c : config),
    path !! i = Some p → path !! S i = Some c → parent !! c = Some p.

(** ** The state of the search at each depth *)

(** Not in the source: the values the local variables of [bfs] hold when
    iteration [k] of the loop of line 92 starts, written as functions of
    [k].  [search_cases] below proves that they are those values. *)

(** The frontier of level [j]; empty when an expansion raised before. *)
Definition frontier_at (start reject : string)
  (transitions : gmap (string * string) (list rule)) (input : string)
  (j : nat) : list config :=
  match level start reject transitions input j with
  | Val fr => fr
  | _ => []
  end.

(** The number of configurations in levels 1 to [n]. *)
Fixpoint generated (start reject : string)
  (transitions : gmap (string * string) (list rule)) (input : string)
  (n : nat) : Z :=
  match n with
  | O => 0
  | S k =>
      generated start reject transitions input k
      + Z.of_nat (length (frontier_at start reject transitions input (S k)))
  end.

(** The parent map after the configurations of [frontier] have been
    expanded in order, starting from [par]. *)
Fixpoint scan_parents (reject : string)
  (transitions : gmap (string * string) (list rule))
  (frontier : list config) (par : gmap config config)
  : gmap config config :=
  match frontier with
  | [] => par
  | t :: rest =>
      match expand reject transitions t with
      | Val cs => scan_parents reject transitions rest (record_parents t cs par)
      | _ => par
      end
  end.

(** The parent map once levels 0 to [k - 1] have been expanded. *)
Fixpoint parents_upto (start reject : string)
  (transitions : gmap (string * string) (list rule)) (input : string)
  (k : nat) : gmap config config :=
  match k with
  | O => ∅
  | S j =>
      scan_parents reject transitions
        (frontier_at start reject transitions input j)
        (parents_upto start reject transitions input j)
  end.

(** The queue once levels 0 to [k - 1] have been expanded. *)
Fixpoint levels_upto (start reject : string)
  (transitions : gmap (string * string) (list rule)) (input : string)
  (k : nat) : list (list config) :=
  match k with
  | O => [frontier_at start reject transitions input 0]
  | S j =>
      levels_upto start reject transitions input j
      ++ [frontier_at start reject transitions input (S j)]
  end.

Definition state_at (start reject : string)
  (transitions : gmap (string * string) (list rule)) (input : string)
  (k : nat) : bfs_state :=
  {| total := generated start reject transitions input k;
     queue := levels_upto start reject transitions input k;
     before := parents_upto start reject transitions input k |}.

(** [c] is one of the configurations generated from [p]. *)
Definition step (reject : string)
  (transitions : gmap (string * string) (list rule)) (p c : config) : Prop :=
  ∃ cs, expand reject transitions p = Val cs ∧ c ∈ cs.

(** Every rule of the table writes something. *)
Definition writes_symbols
  (transitions : gmap (string * string) (list rule)) : Prop :=
  ∀ (k : string * string) (moves : list rule) (r : rule),
    transitions !! k = Some moves → r ∈ moves → r.1.2 ≠ "".

(** ** Loading a machine *)

(** More Python string primitives.  A character is a code point below 256;
    [isspace] is [str.isspace] on those: the controls 9 to 13 and 28 to 31,
    the space, and the Latin-1 characters 133 (next line) and 160 (no-break
    space). *)
Module PyStr.

Definition isspace (c : ascii) : bool :=
  let n := N_of_ascii c in
  (((9 <=? n) && (n <=? 13)) || ((28 <=? n) && (n <=? 32))
   || (n =? 133) || (n =? 160))%N.

(** [s.lstrip()] *)
Fixpoint lstrip (s : string) : string :=
  match s with
  | EmptyString => EmptyString
  | String c r => if isspace c then lstrip r else s
  end.

(** [s.rstrip()] *)
Fixpoint rstrip (s : string) : string :=
  match s with
  | EmptyString => EmptyString
  | String c r =>
      match rstrip r with
      | EmptyString => if isspace c then EmptyString else String c EmptyString
      | String _ _ as r' => String c r'
      end
  end.

(** [s.strip()] *)
Definition strip (s : string) : string := rstrip (lstrip s).

(** [s.split(sep)] for a separator of one character: a list of at least one
    field. *)
Fixpoint split (sep : ascii) (s : string) : list string :=
  match s with
  | EmptyString => [EmptyString]
  | String c r =>
      if Ascii.eqb c sep then EmptyString :: split sep r
      else
        match split sep r with
        | [] => [String c EmptyString]
        | field :: fields => String c field :: fields
        end
  end.

End PyStr.

(** What [read_file] returns, or the exception it raises: [IndexError] from
    [lines[i]], [ValueError] from unpacking a line that has not five
    fields. *)
Inductive load_result (A : Type) : Type :=
| Loaded (a : A)
| LoadIndexError
| LoadValueError.
Arguments Loaded {A} a.
Arguments LoadIndexError {A}.
Arguments LoadValueError {A}.

#[global] Instance load_ret : MRet load_result := fun A a => Loaded a.
#[global] Instance load_bind : MBind load_result := fun A B f m =>
  match m with
  | Loaded a => f a
  | LoadIndexError => LoadIndexError
  | LoadValueError => LoadValueError
  end.

(** The tuple [read_file] returns:
    [(name, start, accept, reject, transitions)]. *)
Definition machine : Type :=
  string * string * list string * string * gmap (string * string) (list rule).

(** [lines[i]] *)
Definition line_at (lines : list string) (i : nat) : load_result string :=
  match lines !! i with
  | Some line => Loaded line
  | None => LoadIndexError
  end.

(** Body of the loop of lines 26-29:
    [transitions.setdefault((curr, r), []).append(...)]. *)
Definition add_rule (transitions : gmap (string * string) (list rule))
  (line : string)
  : flow (gmap (string * string) (list rule)) (load_result machine) :=
  if Py.truthy (PyStr.strip line) then
    match PyStr.split "," (PyStr.strip line) with
    | [curr; r; next_state; w; direction] =>
        Continue
          (<[(curr, r) := default [] (transitions !! (curr, r))
                          ++ [(next_state, w, direction)]]> transitions)
    | _ => Return LoadValueError
    end
  else
    Continue transitions.

(** [read_file(file)], lines 19-31, as a function of [lines], the list that
    [f.readlines()] returned.  Opening the file (lines 11-16) is outside
    the model. *)
Definition read_file (lines : list string) : load_result machine :=
  l0 ← line_at lines 0;
  let name := PyStr.strip l0 in
  l4 ← line_at lines 4;
  let start := PyStr.strip l4 in
  l5 ← line_at lines 5;
  let accept := PyStr.split "," (PyStr.strip l5) in
  l6 ← line_at lines 6;
  let reject := PyStr.strip l6 in
  match for_each add_rule (drop 7 lines) ∅ with
  | Continue transitions => Loaded (name, start, accept, reject, transitions)
  | Return e => e
  end.

(** Not in the source: what a rule line stands for, and the rules the lines
    give for one key, in the order of the lines. *)
Definition parse_rule (line : string) : option (string * string * rule) :=
  match PyStr.split "," (PyStr.strip line) with
  | [curr; r; next_state; w; direction] =>
      Some (curr, r, (next_state, w, direction))
  | _ => None
  end.

Definition rule_for (k : string * string) (line : string) : option rule :=
  match parse_rule line with
  | Some (curr, r, x) => if decide ((curr, r) = k) then Some x else None
  | None => None
  end.

Definition rules_for (k : string * string) (rule_lines : list string)
  : list rule :=
  omap (rule_for k) rule_lines.

(** A sample machine file, as [readlines] returns it. *)
Definition sample_lines : list string :=
  [ "detour" +:+ String "010" "";
    "q0,q1,qa,qr" +:+ String "010" "";
    "a" +:+ String "010" "";
    "a,_" +:+ String "010" "";
    "q0" +:+ String "010" "";
    "qa" +:+ String "010" "";
    "qr" +:+ String "010" "";
    "q0,a,q1,a,R" +:+ String "010" "";
    "q0,a,qa,a,R" +:+ String "010" "";
    String "010" "";
    "q1,_,qa,_,L" +:+ String "010" "" ].

(** * Properties *)

Example move_right_inside : move "x" "abc" "y" "R" = Val ("xy", "bc").
Proof. reflexivity. Qed.
Example move_right_edge : move "x" "a" "y" "R" = Val ("xy", "_").
Proof. reflexivity. Qed.
Example move_left_inside : move "xz" "abc" "y" "L" = Val ("x", "zybc").
Proof. reflexivity. Qed.
Example move_left_edge : move "" "abc" "y" "L" = Val ("", "_ybc").
Proof. reflexivity. Qed.
Example move_left_collapse : move "xz" "a" "_" "L" = Val ("xz", "_").
Proof. reflexivity. Qed.

Example pingpong_level2 :
  level "q0" "qr" Samples.pingpong "ab" 2 = Val [("", "q0", "ab"); ("", "qa", "ab")].
Proof. vm_compute. reflexivity. Qed.

Example pingpong_short : bfs 100 "q0" ["qa"] "qr" Samples.pingpong "ab" 2 = Val (false, 2, 3, []).
Proof. vm_compute. reflexivity. Qed.

Example pingpong_loops : bfs 100 "q0" ["qa"] "qr" Samples.pingpong "ab" 3 = OutOfFuel.
Proof. vm_compute. reflexivity. Qed.

Example detour_path :
  bfs 100 "q0" ["qa"] "qr" Samples.detour "a" 2
  = Val (true, 1, 3, [("", "q0", "a"); ("a", "q1", "_"); ("a", "qa", "_")]).
Proof. vm_compute. reflexivity. Qed.

(** ** Strings *)

Section strings.

Lemma app_cons (a : ascii) (s t : string) :
  String a s +:+ t = String a (s +:+ t).
Proof. reflexivity. Qed.

Lemma app_empty_l (s : string) : "" +:+ s = s.
Proof. reflexivity. Qed.

Lemma len_cons (a : ascii) (s : string) : Py.len (String a s) = 1 + Py.len s.
Proof. unfold Py.len. simpl String.length. lia. Qed.

Lemma len_empty : Py.len "" = 0.
Proof. reflexivity. Qed.

Lemma len_nonneg (s : string) : 0 ≤ Py.len s.
Proof. unfold Py.len. lia. Qed.

Lemma len_app (s t : string) : Py.len (s +:+ t) = Py.len s + Py.len t.
Proof.
  induction s as [|a s IH].
  - rewrite app_empty_l, len_empty. lia.
  - rewrite app_cons, !len_cons, IH. lia.
Qed.

Lemma len_from1 (s : string) :
  Py.len (Py.from1 s) = if Py.truthy s then Py.len s - 1 else 0.
Proof. destruct s as [|a s]; [reflexivity|]. simpl. rewrite len_cons. lia. Qed.

Lemma len_truthy (s : string) :
  if Py.truthy s then 1 ≤ Py.len s else Py.len s = 0.
Proof.
  destruct s as [|a s]; [reflexivity|]. simpl Py.truthy. cbv iota.
  rewrite len_cons. pose proof (len_nonneg s). lia.
Qed.

Lemma truthy_false (s : string) : Py.truthy s = false ↔ s = "".
Proof. destruct s; simpl; split; congruence. Qed.

Lemma truthy_true (s : string) : Py.truthy s = true ↔ s ≠ "".
Proof. destruct s; simpl; split; congruence. Qed.

(** A non-empty string splits into [s[:-1]] and [s[-1]]. *)
Lemma last_split (s : string) :
  s ≠ "" →
  ∃ c, Py.index_last s = Val (String c "") ∧ s = Py.but_last s +:+ String c "".
Proof.
  induction s as [|a s IH]; [congruence|]. intros _.
  destruct s as [|b s].
  - exists a. split; reflexivity.
  - destruct IH as (c & Hl & Hs); [congruence|].
    exists c. split; [exact Hl|].
    change (Py.but_last (String a (String b s)))
      with (String a (Py.but_last (String b s))).
    rewrite app_cons. f_equal. exact Hs.
Qed.

Lemma last_snoc (s : string) (c : ascii) :
  Py.index_last (s +:+ String c "") = Val (String c "")
  ∧ Py.but_last (s +:+ String c "") = s.
Proof.
  induction s as [|a s [IH1 IH2]]; [split; reflexivity|].
  rewrite app_cons.
  destruct (s +:+ String c "") as [|b t] eqn:E.
  - destruct s; discriminate.
  - split.
    + exact IH1.
    + change (Py.but_last (String a (String b t)))
        with (String a (Py.but_last (String b t))).
      f_equal. exact IH2.
Qed.

Lemma len_but_last (s : string) : s ≠ "" → Py.len (Py.but_last s) = Py.len s - 1.
Proof.
  intros Hs. destruct (last_split s Hs) as (c & _ & E).
  rewrite E at 2. rewrite len_app, len_cons, len_empty. lia.
Qed.

End strings.

(** ** The tape operation *)

Section tape.

(** Writing one symbol replaces the head cell, or creates it when [right]
    is empty. *)
Lemma write_symbol (right : string) (c : ascii) :
  write right (String c "") = String c (Py.from1 right).
Proof. destruct right; reflexivity. Qed.

Lemma direction_left (d : string) : d ≠ "R" → String.eqb d "R" = false.
Proof. intros H. by apply String.eqb_neq. Qed.

(** With an empty write string the head cell disappears and a move to the
    right raises. *)
Example move_empty_write_raises : move "" "a" "" "R" = IndexError.
Proof. reflexivity. Qed.

(** C4: a move to the left (any direction other than "R") from a non-empty
    [left]: when [right], after the write, is empty or is the lone blank
    "_", the result is [left] unchanged and [right] = "_" (nothing is
    prepended and [left] is not shortened); otherwise the last symbol of
    [left] is dropped from [left] and prepended to the written [right]. *)
Theorem move_left_from_nonempty (left right write_char direction : string) :
  direction ≠ "R" →
  left ≠ "" →
  let written := write right write_char in
  (written = "" ∨ written = "_" →
     move left right write_char direction = Val (left, "_"))
  ∧ (¬ (written = "" ∨ written = "_") →
     ∃ (rest : string) (c : ascii),
       left = rest +:+ String c ""
       ∧ move left right write_char direction = Val (rest, String c written)).
Proof.
  intros Hd Hl written. unfold move. fold written.
  rewrite (direction_left _ Hd).
  apply truthy_true in Hl as Ht. rewrite Ht.
  split.
  - intros [E | E]; rewrite E; reflexivity.
  - intros Hn.
    destruct (Py.truthy written) eqn:Hw.
    2:{ apply truthy_false in Hw. tauto. }
    destruct (String.eqb_spec written "_") as [E | _]; [tauto|].
    simpl negb. simpl orb. cbv iota.
    destruct (last_split left Hl) as (c & Hlast & Hsplit).
    exists (Py.but_last left), c. split; [exact Hsplit|].
    rewrite Hlast. reflexivity.
Qed.

Lemma move_left_from_nonempty_witness :
  move "xz" "a" "_" "L" = Val ("xz", "_")
  ∧ ∃ (rest : string) (c : ascii),
      "xz" = rest +:+ String c ""
      ∧ move "xz" "abc" "y" "L" = Val (rest, String c (write "abc" "y")).
Proof.
  split.
  - apply (move_left_from_nonempty "xz" "a" "_" "L"); [done | done |].
    right. reflexivity.
  - apply (move_left_from_nonempty "xz" "abc" "y" "L"); [done | done |].
    intros [H | H]; discriminate H.
Defined.

Lemma move_symbol_growth (left right direction : string) (c : ascii) :
  ∃ new_left new_right,
    move left right (String c "") direction = Val (new_left, new_right)
    ∧ new_right ≠ ""
    ∧ Py.len new_left + Py.len new_right
      ≤ Py.len left + Py.len right + growth_bound right.
Proof.
  unfold move, growth_bound. rewrite write_symbol.
  pose proof (len_from1 right) as Hf.
  pose proof (len_nonneg right) as Hr.
  pose proof (len_nonneg left) as Hl0.
  pose proof (len_truthy right) as Ht.
  destruct (String.eqb direction "R").
  - rewrite len_cons. simpl Py.index0. simpl Py.from1.
    destruct (Z.ltb_spec 1 (1 + Py.len (Py.from1 right))) as [Hlt | Hge];
      eexists _, _; (split; [reflexivity|]).
    + split.
      * intros E. rewrite E, len_empty in Hlt. lia.
      * rewrite len_app, len_cons, len_empty.
        destruct (Py.truthy right); lia.
    + split; [discriminate|].
      rewrite len_app, !len_cons, len_empty.
      destruct (Py.truthy right); lia.
  - destruct (Py.truthy left) eqn:Hl.
    + simpl Py.truthy. simpl negb. rewrite orb_false_l.
      destruct (String.eqb (String c (Py.from1 right)) "_").
      * eexists _, _. split; [reflexivity|]. split; [discriminate|].
        rewrite len_cons, len_empty.
        destruct (Py.truthy right); lia.
      * apply truthy_true in Hl.
        destruct (last_split left Hl) as (a & Hlast & _).
        rewrite Hlast. eexists _, _. split; [reflexivity|].
        split; [discriminate|].
        rewrite app_cons, app_empty_l, !len_cons, len_but_last by done.
        destruct (Py.truthy right); lia.
    + eexists _, _. split; [reflexivity|]. split; [discriminate|].
      rewrite app_cons, app_empty_l, !len_cons.
      destruct (Py.truthy right); lia.
Qed.

(** C6 (amended): for every tape, one-symbol write and direction, [move]
    returns (it raises nothing) and the returned [right] is not empty; the
    combined length of the two sequences grows by at most one when [right]
    was not empty on entry, and by at most two when it was empty. *)
Theorem move_symbol_total (left right direction : string) (c : ascii) :
  ∃ new_left new_right,
    move left right (String c "") direction = Val (new_left, new_right)
    ∧ new_right ≠ ""
    ∧ (right ≠ "" →
       Py.len new_left + Py.len new_right ≤ Py.len left + Py.len right + 1)
    ∧ Py.len new_left + Py.len new_right ≤ Py.len left + Py.len right + 2.
Proof.
  destruct (move_symbol_growth left right direction c)
    as (nl & nr & Hm & Hne & Hlen).
  exists nl, nr. split; [exact Hm|]. split; [exact Hne|].
  unfold growth_bound in Hlen. split.
  - intros Hr. apply truthy_true in Hr. rewrite Hr in Hlen. exact Hlen.
  - destruct (Py.truthy right); lia.
Qed.

Lemma move_symbol_total_witness :
  ∃ new_left new_right,
    move "x" "a" "y" "R" = Val (new_left, new_right)
    ∧ new_right ≠ ""
    ∧ Py.len new_left + Py.len new_right ≤ Py.len "x" + Py.len "a" + 1.
Proof.
  destruct (move_symbol_total "x" "a" "R" "y")
    as (nl & nr & Hm & Hne & Hone & _).
  exists nl, nr. split; [exact Hm|]. split; [exact Hne|].
  apply Hone. discriminate.
Defined.

(** C6 as stated fails: from an empty [right], the write creates one cell
    and the move to the right another. *)
Lemma move_grows_by_two :
  move "" "" "a" "R" = Val ("a", "_")
  ∧ ¬ (Py.len "a" + Py.len "_" ≤ Py.len "" + Py.len "" + 1).
Proof. split; [reflexivity|]. vm_compute. intros H. apply H. reflexivity. Qed.

End tape.

(** ** One step of the search *)

Section step.

Variables (fuel : nat) (accept : list string) (reject : string).
Variable transitions : gmap (string * string) (list rule).

Lemma for_each_cons {A S R : Type} (body : S → A → flow S R)
  (x : A) (xs : list A) (s : S) :
  for_each body (x :: xs) s
  = match body s x with
    | Continue s' => for_each body xs s'
    | Return r => Return r
    end.
Proof. reflexivity. Qed.

Lemma read_head_symbol (right : string) :
  read_head right = Val (head_symbol right).
Proof. destruct right; reflexivity. Qed.

(** While level [depth] is being scanned the queue has [depth + 2] lists;
    [enqueue] extends the last one. *)
Lemma enqueue_last (depth : nat) (nt t : config) (tot : Z)
  (done : list (list config)) (nxt : list config) (par : gmap config config) :
  length done = S depth →
  enqueue depth nt t (BfsState tot (done ++ [nxt]) par)
  = Val (BfsState (tot + 1) (done ++ [nxt ++ [nt]]) (<[nt := t]> par)).
Proof.
  intros Hlen. unfold enqueue. simpl queue.
  rewrite list_lookup_middle by done. simpl total. simpl before.
  do 2 f_equal.
  replace (S depth) with (length done + 0)%nat by lia.
  rewrite insert_app_r. reflexivity.
Qed.

(** The loop over the rules that apply generates the [successors]. *)
Lemma rules_eq (depth : nat) (t : config) (moves : list rule) (tot : Z)
  (done : list (list config)) (nxt : list config) (par : gmap config config) :
  length done = S depth →
  for_each (apply_rule depth t) moves (BfsState tot (done ++ [nxt]) par)
  = match successors t moves with
    | Val cs => Continue (grown t cs tot done nxt par)
    | IndexError => Return IndexError
    | OutOfFuel => Return OutOfFuel
    end.
Proof.
  intros Hlen. revert tot nxt par.
  induction moves as [|[[next_state w] d] moves IH]; intros tot nxt par.
  - simpl. unfold grown. simpl. rewrite Z.add_0_r, app_nil_r. reflexivity.
  - rewrite for_each_cons. simpl successors.
    unfold apply_rule at 1. unfold successor.
    destruct (move t.1.1 t.2 w d) as [[new_left new_right]| |]; simpl;
      [|reflexivity..].
    rewrite enqueue_last by done. simpl attempt. cbv iota. rewrite IH.
    destruct (successors t moves) as [cs| |]; simpl; [|reflexivity..].
    unfold grown. simpl. f_equal. f_equal; [lia|].
    rewrite <- app_assoc. reflexivity.
Qed.

(** Scanning one configuration: accept, or generate what [expand] says. *)
Lemma visit_eq (depth : nat) (t : config) (tot : Z)
  (done : list (list config)) (nxt : list config) (par : gmap config config) :
  length done = S depth →
  visit fuel accept reject transitions depth
    (BfsState tot (done ++ [nxt]) par) t
  = if bool_decide (state_of t ∈ accept) then
      Return (path ← trace fuel t par;
              mret (true, Z.of_nat depth, tot, path))
    else
      match expand reject transitions t with
      | Val cs => Continue (grown t cs tot done nxt par)
      | IndexError => Return IndexError
      | OutOfFuel => Return OutOfFuel
      end.
Proof.
  intros Hlen. unfold visit, expand, state_of. simpl total. simpl before.
  destruct (bool_decide (t.1.2 ∈ accept)); [reflexivity|].
  destruct (String.eqb t.1.2 reject).
  - unfold grown. simpl. rewrite Z.add_0_r, app_nil_r. reflexivity.
  - rewrite read_head_symbol.
    destruct (default [] (transitions !! (t.1.2, head_symbol t.2)))
      as [|r moves] eqn:E.
    + rewrite enqueue_last by done. reflexivity.
    + apply rules_eq. exact Hlen.
Qed.

End step.

(** ** Path reconstruction *)

Section paths.

Lemma trace_loop_extends (fuel : nat) (t : config)
  (parent : gmap config config) (acc path : list config) :
  trace_loop fuel t parent acc = Val path → ∃ more, path = acc ++ more.
Proof.
  revert t acc. induction fuel as [|fuel IH]; intros t acc; simpl;
    destruct (parent !! t) as [p|]; intros H; try discriminate.
  - injection H as <-. exists []. by rewrite app_nil_r.
  - apply IH in H as [more ->]. exists (p :: more).
    rewrite <- app_assoc. reflexivity.
  - injection H as <-. exists []. by rewrite app_nil_r.
Qed.

(** The reconstructed path ends at the configuration it was asked for. *)
Lemma trace_last (fuel : nat) (t : config) (parent : gmap config config)
  (path : list config) :
  trace fuel t parent = Val path → last path = Some t.
Proof.
  unfold trace. intros H.
  destruct (trace_loop fuel t parent [t]) as [acc| |] eqn:E;
    try discriminate.
  injection H as <-.
  apply trace_loop_extends in E as [more ->].
  rewrite last_reverse. reflexivity.
Qed.

(** Two configurations that are each other's parent: the loop never
    leaves them. *)
Lemma trace_loop_cycle (parent : gmap config config) (a b : config) :
  parent !! a = Some b → parent !! b = Some a →
  ∀ fuel acc,
    trace_loop fuel a parent acc = OutOfFuel
    ∧ trace_loop fuel b parent acc = OutOfFuel.
Proof.
  intros Ha Hb. induction fuel as [|fuel IH]; intros acc; simpl;
    rewrite Ha, Hb; [split; reflexivity|].
  split; apply IH.
Qed.

End paths.

(** ** Scanning a frontier *)

Section scan.

Variables (fuel : nat) (accept : list string) (reject : string).
Variable transitions : gmap (string * string) (list rule).
Variable depth : nat.

Local Abbreviation scan := (for_each (visit fuel accept reject transitions depth)).

(** A scan that falls through met no accepting configuration and left the
    next frontier in the last list of the queue. *)
Lemma scan_continue (frontier : list config) (tot : Z)
  (done : list (list config)) (nxt : list config)
  (par : gmap config config) (s' : bfs_state) :
  length done = S depth →
  scan frontier (BfsState tot (done ++ [nxt]) par) = Continue s' →
  (∀ c, c ∈ frontier → ¬ accepting accept c)
  ∧ ∃ cs, next_level reject transitions frontier = Val cs
          ∧ total s' = tot + Z.of_nat (length cs)
          ∧ queue s' = done ++ [nxt ++ cs].
Proof.
  intros Hlen. revert tot nxt par.
  induction frontier as [|t frontier IH]; intros tot nxt par H.
  - simpl in H. injection H as <-. split; [intros c Hc; inversion Hc|].
    exists []. simpl. rewrite Z.add_0_r, app_nil_r. done.
  - rewrite for_each_cons, visit_eq in H by done.
    destruct (bool_decide (state_of t ∈ accept)) eqn:Hacc; [discriminate|].
    apply bool_decide_eq_false in Hacc.
    destruct (expand reject transitions t) as [cs| |] eqn:E;
      try discriminate.
    unfold grown in H. apply IH in H as (Hall & more & Hnext & Htot & Hq).
    split.
    + intros c [-> | Hc]%elem_of_cons; [exact Hacc | by apply Hall].
    + exists (cs ++ more). simpl. rewrite E, Hnext. simpl.
      rewrite length_app, Htot, Hq, <- app_assoc.
      split; [reflexivity|]. split; [lia | reflexivity].
Qed.

(** A scan that returns a report stopped at the first accepting
    configuration of the frontier. *)
Lemma scan_return (frontier : list config) (tot : Z)
  (done : list (list config)) (nxt : list config)
  (par : gmap config config) (rep : report) :
  length done = S depth →
  scan frontier (BfsState tot (done ++ [nxt]) par) = Return (Val rep) →
  rep.1.1.1 = true ∧ rep.1.1.2 = Z.of_nat depth
  ∧ ∃ pre c post,
      frontier = pre ++ c :: post
      ∧ (∀ x, x ∈ pre → ¬ accepting accept x)
      ∧ accepting accept c
      ∧ last rep.2 = Some c.
Proof.
  intros Hlen. revert tot nxt par.
  induction frontier as [|t frontier IH]; intros tot nxt par H.
  - discriminate.
  - rewrite for_each_cons, visit_eq in H by done.
    destruct (bool_decide (state_of t ∈ accept)) eqn:Hacc.
    + apply bool_decide_eq_true in Hacc.
      destruct (trace fuel t par) as [path| |] eqn:Ht; try discriminate.
      simpl in H. injection H as <-. simpl.
      split; [reflexivity|]. split; [reflexivity|].
      exists [], t, frontier. split; [reflexivity|].
      split; [intros x Hx; inversion Hx|]. split; [exact Hacc|].
      by eapply trace_last.
    + apply bool_decide_eq_false in Hacc.
      destruct (expand reject transitions t) as [cs| |] eqn:E;
        try discriminate.
      unfold grown in H.
      apply IH in H as (Hb & Hd & pre & c & post & -> & Hpre & Hc & Hlast).
      split; [exact Hb|]. split; [exact Hd|].
      exists (t :: pre), c, post. split; [reflexivity|].
      split; [|done].
      intros x [-> | Hx]%elem_of_cons; [exact Hacc | by apply Hpre].
Qed.

End scan.

(** ** The search *)

Section search.

Variables (fuel : nat) (start : string) (accept : list string).
Variables (reject : string).
Variable transitions : gmap (string * string) (list rule).
Variable input : string.

Local Abbreviation level_at := (level start reject transitions input).
Local Abbreviation search := (for_each (explore fuel accept reject transitions)).

(** No configuration of a level below [m] is accepting. *)
Local Abbreviation quiet_below m :=
  (∀ j : nat, (j < m)%nat →
     ∃ fr, level_at j = Val fr ∧ ∀ c, c ∈ fr → ¬ accepting accept c).

(** When iteration [k] starts, the queue holds [k + 1] lists and the last
    one is the frontier of level [k]. *)
Lemma search_accepts (n k : nat) (s : bfs_state) (fr : list config)
  (d tot : Z) (path : list config) :
  length (queue s) = S k →
  queue s !! k = Some fr →
  level_at k = Val fr →
  quiet_below k →
  search (seq k n) s = Return (Val (true, d, tot, path)) →
  ∃ m : nat,
    d = Z.of_nat m ∧ (k ≤ m < k + n)%nat
    ∧ quiet_below m
    ∧ ∃ pre c post,
        level_at m = Val (pre ++ c :: post)
        ∧ (∀ x, x ∈ pre → ¬ accepting accept x)
        ∧ accepting accept c
        ∧ last path = Some c.
Proof.
  revert k s fr. induction n as [|n IH]; intros k s fr Hlen Hq Hlev Hquiet H.
  - discriminate.
  - simpl seq in H. rewrite for_each_cons in H.
    destruct s as [tot0 q par]. simpl in Hlen, Hq.
    unfold explore at 1 in H. simpl queue in H. rewrite Hq in H.
    destruct fr as [|t fr]; [discriminate|].
    cbv beta iota zeta in H. simpl total in H. simpl before in H.
    destruct (for_each (visit fuel accept reject transitions k) (t :: fr)
                (BfsState tot0 (q ++ [[]]) par)) as [s'|r] eqn:E.
    + apply scan_continue in E as (Hall & cs & Hnext & _ & Hq'); [|done].
      simpl in Hq'.
      apply (IH (S k) s' cs) in H.
      * destruct H as (m & Hd & Hm & Hrest). exists m.
        split; [exact Hd|]. split; [lia | exact Hrest].
      * rewrite Hq', length_app. simpl. lia.
      * rewrite Hq'. by apply list_lookup_middle.
      * simpl. rewrite Hlev. exact Hnext.
      * intros j Hj. destruct (decide (j = k)) as [-> | Hne].
        -- exists (t :: fr). split; [exact Hlev | exact Hall].
        -- apply Hquiet. lia.
    + injection H as ->.
      apply scan_return in E
        as (_ & Hd & pre & c & post & Hfr & Hpre & Hc & Hlast); [|done].
      simpl in Hd, Hlast. exists k. split; [exact Hd|]. split; [lia|].
      split; [exact Hquiet|].
      exists pre, c, post. rewrite Hlev, Hfr. done.
Qed.

(** C1: when [bfs] reports acceptance at depth [d], no configuration of a
    level shallower than [d] is accepting, and the configuration the
    reported path ends at is the first accepting one of the level-[d]
    frontier, in the order the frontier was enqueued. *)
Theorem bfs_accepts_shallowest (max_steps d tot : Z) (path : list config) :
  bfs fuel start accept reject transitions input max_steps
  = Val (true, d, tot, path) →
  ∃ m : nat,
    d = Z.of_nat m ∧ d < max_steps
    ∧ (∀ j : nat, (j < m)%nat →
         ∃ fr, level_at j = Val fr ∧ ∀ c, c ∈ fr → ¬ accepting accept c)
    ∧ ∃ pre c post,
        level_at m = Val (pre ++ c :: post)
        ∧ (∀ x, x ∈ pre → ¬ accepting accept x)
        ∧ accepting accept c
        ∧ last path = Some c.
Proof.
  unfold bfs. intros H.
  destruct (search (seq 0 (Z.to_nat max_steps)) (bfs_init start input))
    as [s|r] eqn:E; [discriminate|]. subst r.
  apply (search_accepts _ 0 _ [("", start, input)]) in E;
    [| reflexivity | reflexivity | reflexivity | intros j Hj; lia].
  destruct E as (m & Hd & Hm & Hrest).
  exists m. split; [exact Hd|]. split; [lia | exact Hrest].
Qed.

End search.

(** ** The start of a run and the step bound *)

Section bounds.

Variables (fuel : nat) (start : string) (accept : list string).
Variables (reject : string).
Variable transitions : gmap (string * string) (list rule).
Variable input : string.

(** C7 (amended): the level-0 frontier holds exactly one configuration:
    [left] empty, the start state, and [right] the input string as it was
    given, the empty string included; a run that accepts at once reports
    that configuration as its whole path. *)
Theorem initial_frontier :
  queue (bfs_init start input) = [[("", start, input)]]
  ∧ level start reject transitions input 0 = Val [("", start, input)]
  ∧ ∀ max_steps : Z,
      start ∈ accept → 0 < max_steps →
      bfs fuel start accept reject transitions input max_steps
      = Val (true, 0, 0, [("", start, input)]).
Proof.
  split; [reflexivity|]. split; [reflexivity|].
  intros max_steps Hacc Hpos. unfold bfs.
  destruct (Z.to_nat max_steps) as [|n] eqn:E; [lia|].
  simpl seq. rewrite for_each_cons. unfold explore at 1, bfs_init.
  cbn [queue total before lookup list_lookup].
  rewrite for_each_cons.
  rewrite (visit_eq _ _ _ _ 0 _ _ [[("", start, input)]] []) by done.
  rewrite bool_decide_eq_true_2 by exact Hacc.
  destruct fuel; reflexivity.
Qed.

(** C8 (amended): with a step bound that is zero or negative the loop body
    never runs: the result is not accepted, has no transitions and no
    path, and the depth it reports is the bound itself. *)
Theorem bfs_without_steps (max_steps : Z) :
  max_steps ≤ 0 →
  bfs fuel start accept reject transitions input max_steps
  = Val (false, max_steps, 0, []).
Proof.
  intros Hle. unfold bfs.
  replace (Z.to_nat max_steps) with 0%nat by lia. reflexivity.
Qed.

End bounds.

Lemma initial_frontier_witness :
  bfs 0 "q0" ["q0"] "qr" ∅ "" 1 = Val (true, 0, 0, [("", "q0", "")]).
Proof.
  apply (initial_frontier 0 "q0" ["q0"] "qr" ∅ "").
  - apply list_elem_of_here.
  - lia.
Defined.

(** C7 as stated fails: an empty input leaves [right] empty; no blank is
    put there. *)
Lemma initial_frontier_empty_input :
  queue (bfs_init "q0" "") = [[("", "q0", "")]]
  ∧ queue (bfs_init "q0" "") ≠ [[("", "q0", "_")]].
Proof. split; [reflexivity | discriminate]. Qed.

Lemma bfs_without_steps_witness :
  bfs 0 "q0" ["qa"] "qr" ∅ "ab" 0 = Val (false, 0, 0, []).
Proof. apply (bfs_without_steps 0 "q0" ["qa"] "qr" ∅ "ab" 0). lia. Defined.

(** C8 as stated fails: a negative bound is reported as the depth. *)
Lemma bfs_negative_bound_depth :
  bfs 0 "q0" ["qa"] "qr" ∅ "ab" (-3) = Val (false, -3, 0, [])
  ∧ (-3 : Z) ≠ 0.
Proof. split; [reflexivity | discriminate]. Qed.

(** ** Reaching an accepting configuration *)

Section reach.

Variables (start : string) (accept : list string) (reject : string).
Variable transitions : gmap (string * string) (list rule).
Variable input : string.

Local Abbreviation level_at := (level start reject transitions input).

Lemma next_level_app (pre post : list config) :
  next_level reject transitions (pre ++ post)
  = (cs ← next_level reject transitions pre;
     more ← next_level reject transitions post;
     mret (cs ++ more)).
Proof.
  induction pre as [|c pre IH]; simpl.
  - destruct (next_level reject transitions post); reflexivity.
  - destruct (expand reject transitions c) as [cs| |]; simpl; [|reflexivity..].
    rewrite IH.
    destruct (next_level reject transitions pre) as [cs'| |]; simpl;
      [|reflexivity..].
    destruct (next_level reject transitions post) as [more| |]; simpl;
      [|reflexivity..].
    unfold mret, outcome_ret. by rewrite app_assoc.
Qed.

(** Once a frontier is empty, so are all the later ones. *)
Lemma level_empty_stays (j i : nat) :
  level_at j = Val [] → level_at (j + i) = Val [].
Proof.
  intros Hj. induction i as [|i IH].
  - by rewrite Nat.add_0_r.
  - replace (j + S i)%nat with (S (j + i)) by lia. simpl. rewrite IH.
    reflexivity.
Qed.

(** A frontier without accepting configurations whose expansion raises
    nothing is scanned to the end. *)
Lemma scan_quiet (depth : nat) (frontier cs : list config) (tot : Z)
  (done : list (list config)) (nxt : list config)
  (par : gmap config config) :
  length done = S depth →
  (∀ c, c ∈ frontier → ¬ accepting accept c) →
  next_level reject transitions frontier = Val cs →
  ∃ par', ∀ fuel,
    for_each (visit fuel accept reject transitions depth) frontier
      (BfsState tot (done ++ [nxt]) par)
    = Continue (BfsState (tot + Z.of_nat (length cs))
                  (done ++ [nxt ++ cs]) par').
Proof.
  intros Hlen. revert cs tot nxt par.
  induction frontier as [|t frontier IH]; intros cs tot nxt par Hall Hnext.
  - injection Hnext as <-. exists par. intros fuel. simpl.
    by rewrite Z.add_0_r, app_nil_r.
  - simpl in Hnext.
    destruct (expand reject transitions t) as [cs1| |] eqn:E;
      try discriminate.
    destruct (next_level reject transitions frontier) as [cs2| |] eqn:E2;
      try discriminate.
    injection Hnext as <-.
    destruct (IH cs2 (tot + Z.of_nat (length cs1)) (nxt ++ cs1)
                (record_parents t cs1 par)) as [par' Hpar'].
    { intros c Hc. apply Hall. by right. }
    { reflexivity. }
    exists par'. intros fuel.
    rewrite for_each_cons, visit_eq by done.
    rewrite bool_decide_eq_false_2 by (apply Hall; left).
    rewrite E. unfold grown. rewrite Hpar'.
    rewrite length_app, <- app_assoc, Nat2Z.inj_add, Z.add_assoc.
    reflexivity.
Qed.

(** The scan stops at the first accepting configuration of a frontier. *)
Lemma scan_accepts (depth : nat) (pre post cs : list config) (c : config)
  (tot : Z) (done : list (list config)) (nxt : list config)
  (par : gmap config config) :
  length done = S depth →
  (∀ x, x ∈ pre → ¬ accepting accept x) →
  next_level reject transitions pre = Val cs →
  accepting accept c →
  ∃ par', ∀ fuel,
    for_each (visit fuel accept reject transitions depth) (pre ++ c :: post)
      (BfsState tot (done ++ [nxt]) par)
    = Return (path ← trace fuel c par';
              mret (true, Z.of_nat depth,
                    tot + Z.of_nat (length cs), path)).
Proof.
  intros Hlen. revert cs tot nxt par.
  induction pre as [|t pre IH]; intros cs tot nxt par Hall Hnext Hc.
  - injection Hnext as <-. exists par. intros fuel.
    rewrite app_nil_l, for_each_cons, visit_eq by done.
    rewrite bool_decide_eq_true_2 by exact Hc.
    simpl length. by rewrite Z.add_0_r.
  - simpl in Hnext.
    destruct (expand reject transitions t) as [cs1| |] eqn:E;
      try discriminate.
    destruct (next_level reject transitions pre) as [cs2| |] eqn:E2;
      try discriminate.
    injection Hnext as <-.
    destruct (IH cs2 (tot + Z.of_nat (length cs1)) (nxt ++ cs1)
                (record_parents t cs1 par)) as [par' Hpar'].
    { intros x Hx. apply Hall. by right. }
    { reflexivity. }
    { exact Hc. }
    exists par'. intros fuel.
    rewrite <- app_comm_cons, for_each_cons, visit_eq by done.
    rewrite bool_decide_eq_false_2 by (apply Hall; left).
    rewrite E. unfold grown. rewrite Hpar'.
    rewrite length_app, Nat2Z.inj_add, Z.add_assoc. reflexivity.
Qed.

(** The search reaches the first accepting configuration of the
    shallowest level that has one, when no expansion scanned before it
    raises. *)
Lemma search_reaches (m : nat) (pre post cs : list config) (c : config) :
  level_at m = Val (pre ++ c :: post) →
  (∀ x, x ∈ pre → ¬ accepting accept x) →
  next_level reject transitions pre = Val cs →
  accepting accept c →
  ∀ (n k : nat) (s : bfs_state) (fr : list config),
    (k ≤ m < k + n)%nat →
    length (queue s) = S k →
    queue s !! k = Some fr →
    level_at k = Val fr →
    (∀ j : nat, (k ≤ j < m)%nat →
       ∃ fr, level_at j = Val fr ∧ ∀ x, x ∈ fr → ¬ accepting accept x) →
    ∃ par tot, ∀ fuel,
      for_each (explore fuel accept reject transitions) (seq k n) s
      = Return (path ← trace fuel c par;
                mret (true, Z.of_nat m, tot, path)).
Proof.
  intros Hm Hpre Hnext Hc.
  induction n as [|n IH]; intros k s fr Hk Hlen Hq Hlev Hquiet; [lia|].
  destruct s as [tot0 q par0]. simpl in Hlen, Hq.
  destruct (decide (k = m)) as [-> | Hne].
  - rewrite Hm in Hlev. injection Hlev as <-.
    destruct (scan_accepts m pre post cs c tot0 q [] par0)
      as [par' Hscan]; [done..|].
    exists par', (tot0 + Z.of_nat (length cs)). intros fuel.
    simpl seq. rewrite for_each_cons. unfold explore at 1.
    simpl queue. rewrite Hq.
    destruct (pre ++ c :: post) as [|t rest] eqn:Efr.
    { by destruct pre. }
    cbv beta iota zeta. simpl total. simpl before.
    rewrite Hscan. reflexivity.
  - destruct (Hquiet k) as (fr' & Hfr' & Hall); [lia|].
    rewrite Hlev in Hfr'. injection Hfr' as <-.
    assert (∃ cs', level_at (S k) = Val cs') as [cs' Hcs'].
    { destruct (decide (S k = m)) as [-> | Hne'].
      - by eexists.
      - destruct (Hquiet (S k)) as (x & Hx & _); [lia|]. by eexists. }
    assert (Hnl : next_level reject transitions fr = Val cs').
    { simpl in Hcs'. by rewrite Hlev in Hcs'. }
    destruct fr as [|t fr].
    { exfalso. pose proof (level_empty_stays k (m - k) Hlev) as Hz.
      replace (k + (m - k))%nat with m in Hz by lia.
      rewrite Hm in Hz. injection Hz as Hz. by destruct pre. }
    destruct (scan_quiet k (t :: fr) cs' tot0 q [] par0)
      as [par' Hscan]; [done..|].
    destruct (IH (S k)
                (BfsState (tot0 + Z.of_nat (length cs')) (q ++ [[] ++ cs'])
                   par') cs')
      as (par & tot & Hsearch).
    + lia.
    + simpl. rewrite length_app. simpl. lia.
    + simpl. by apply list_lookup_middle.
    + exact Hcs'.
    + intros j Hj. apply Hquiet. lia.
    + exists par, tot. intros fuel.
      simpl seq. rewrite for_each_cons. unfold explore at 1.
      simpl queue. rewrite Hq.
      cbv beta iota zeta. simpl total. simpl before.
      rewrite Hscan. apply Hsearch.
Qed.

End reach.

(** ** The parent map *)

Section parents.

Lemma record_parents_cons (t x : config) (cs : list config)
  (m : gmap config config) :
  record_parents t (x :: cs) m = record_parents t cs (<[x := t]> m).
Proof. reflexivity. Qed.

Lemma record_parents_other (t c : config) (cs : list config)
  (m : gmap config config) :
  c ∉ cs → record_parents t cs m !! c = m !! c.
Proof.
  revert m. induction cs as [|x cs IH]; intros m Hc; [reflexivity|].
  apply not_elem_of_cons in Hc as [Hne Hc].
  rewrite record_parents_cons, IH by exact Hc.
  by apply lookup_insert_ne.
Qed.

Lemma record_parents_child (t c : config) (cs : list config)
  (m : gmap config config) :
  c ∈ cs → record_parents t cs m !! c = Some t.
Proof.
  revert m. induction cs as [|x cs IH]; intros m Hc; [inversion Hc|].
  rewrite record_parents_cons.
  destruct (decide (c ∈ cs)) as [Hin | Hout]; [by apply IH|].
  apply elem_of_cons in Hc as [-> | Hc]; [|done].
  rewrite record_parents_other by exact Hout.
  apply lookup_insert_eq.
Qed.

Lemma record_parents_dom (t : config) (cs : list config)
  (m : gmap config config) :
  dom (record_parents t cs m) = dom m ∪ list_to_set cs.
Proof.
  revert m. induction cs as [|x cs IH]; intros m.
  - simpl. set_solver.
  - rewrite record_parents_cons, IH, dom_insert_L. simpl. set_solver.
Qed.

End parents.

Section claims.

Variables (accept : list string) (reject : string).
Variable transitions : gmap (string * string) (list rule).

(** C5: a scanned configuration that is neither accepting nor rejecting
    and whose (state, head symbol) pair has no entry in the table produces
    exactly one successor, the same [left] and [right] in the reject
    state; it is appended to the next frontier, its parent is recorded and
    the counter of transitions goes up by one. *)
Theorem visit_without_rule (fuel depth : nat) (t : config) (tot : Z)
  (done : list (list config)) (nxt : list config)
  (par : gmap config config) :
  length done = S depth →
  ¬ accepting accept t →
  state_of t ≠ reject →
  transitions !! (state_of t, head_symbol t.2) = None →
  expand reject transitions t = Val [(t.1.1, reject, t.2)]
  ∧ visit fuel accept reject transitions depth
      (BfsState tot (done ++ [nxt]) par) t
    = Continue (BfsState (tot + 1)
                  (done ++ [nxt ++ [(t.1.1, reject, t.2)]])
                  (<[(t.1.1, reject, t.2) := t]> par)).
Proof.
  intros Hlen Hacc Hrej Hnone.
  assert (E : expand reject transitions t = Val [(t.1.1, reject, t.2)]).
  { unfold expand. fold (state_of t).
    apply String.eqb_neq in Hrej. rewrite Hrej, Hnone. reflexivity. }
  split; [exact E|].
  rewrite visit_eq by exact Hlen.
  rewrite bool_decide_eq_false_2 by exact Hacc.
  rewrite E. reflexivity.
Qed.

(** C9: the parent map is keyed by the value of a configuration.  After a
    configuration [t] has been expanded, every successor it generated
    maps to [t], whatever parent the map held for an equal tuple before;
    the other entries are unchanged, and the keys are the old keys and
    the successors, one entry for each distinct value. *)
Theorem parent_overwritten (fuel depth : nat) (t : config) (tot : Z)
  (done : list (list config)) (nxt : list config)
  (par : gmap config config) (s' : bfs_state) :
  length done = S depth →
  visit fuel accept reject transitions depth
    (BfsState tot (done ++ [nxt]) par) t = Continue s' →
  ∃ cs,
    expand reject transitions t = Val cs
    ∧ (∀ c, c ∈ cs → before s' !! c = Some t)
    ∧ (∀ c, c ∉ cs → before s' !! c = par !! c)
    ∧ dom (before s') = dom par ∪ list_to_set cs.
Proof.
  intros Hlen H. rewrite visit_eq in H by exact Hlen.
  destruct (bool_decide (state_of t ∈ accept)); [discriminate|].
  destruct (expand reject transitions t) as [cs| |]; try discriminate.
  injection H as <-. exists cs. unfold grown. simpl before.
  split; [reflexivity|].
  split; [intros c Hc; by apply record_parents_child|].
  split; [intros c Hc; by apply record_parents_other|].
  apply record_parents_dom.
Qed.

(** The accepting exit of the scan: the check of line 101 comes first. *)
Lemma visit_accepting (fuel depth : nat) (s : bfs_state) (c : config) :
  accepting accept c →
  visit fuel accept reject transitions depth s c
  = Return (path ← trace fuel c (before s);
            mret (true, Z.of_nat depth, total s, path)).
Proof.
  intros Hc. unfold visit. fold (state_of c).
  by rewrite bool_decide_eq_true_2.
Qed.

(** [bfs] reaches the first accepting configuration of the shallowest
    level that has one, within the step bound, and hands it to [trace]. *)
Lemma bfs_reaches (start input : string) (max_steps : Z) (m : nat)
  (pre post cs : list config) (c : config) :
  Z.of_nat m < max_steps →
  (∀ j : nat, (j < m)%nat →
     ∃ fr, level start reject transitions input j = Val fr
           ∧ ∀ x, x ∈ fr → ¬ accepting accept x) →
  level start reject transitions input m = Val (pre ++ c :: post) →
  (∀ x, x ∈ pre → ¬ accepting accept x) →
  next_level reject transitions pre = Val cs →
  accepting accept c →
  ∃ par tot, ∀ fuel,
    bfs fuel start accept reject transitions input max_steps
    = (path ← trace fuel c par; mret (true, Z.of_nat m, tot, path)).
Proof.
  intros Hm Hquiet Hlev Hpre Hnext Hc.
  destruct (search_reaches start accept reject transitions input
              m pre post cs c Hlev Hpre Hnext Hc
              (Z.to_nat max_steps) 0 (bfs_init start input)
              [("", start, input)])
    as (par & tot & H); [lia | reflexivity.. | |].
  { intros j Hj. apply Hquiet. lia. }
  exists par, tot. intros fuel. unfold bfs. rewrite H. reflexivity.
Qed.

(** Acceptance is checked before rejection.  A configuration whose
    state is in the accept list and is also the reject state is never
    skipped: scanning it leaves the loop through the accepting [return],
    and when it is the first accepting configuration of the shallowest
    level that has one, [bfs] goes on to [trace] from it and returns the
    accepted report at that depth if [trace] returns. *)
Lemma accept_before_reject (c : config) :
  accepting accept c →
  state_of c = reject →
  (∀ fuel depth s,
     visit fuel accept reject transitions depth s c
     = Return (path ← trace fuel c (before s);
               mret (true, Z.of_nat depth, total s, path)))
  ∧ (∀ start input max_steps (m : nat) pre post cs,
       Z.of_nat m < max_steps →
       (∀ j : nat, (j < m)%nat →
          ∃ fr, level start reject transitions input j = Val fr
                ∧ ∀ x, x ∈ fr → ¬ accepting accept x) →
       level start reject transitions input m = Val (pre ++ c :: post) →
       (∀ x, x ∈ pre → ¬ accepting accept x) →
       next_level reject transitions pre = Val cs →
       ∃ par tot, ∀ fuel,
         bfs fuel start accept reject transitions input max_steps
         = (path ← trace fuel c par; mret (true, Z.of_nat m, tot, path))).
Proof.
  intros Hc _. split.
  - intros fuel depth s. by apply visit_accepting.
  - intros start input max_steps m pre post cs Hm Hquiet Hlev Hpre Hnext.
    by eapply bfs_reaches.
Qed.

End claims.

(** ** Runs of the sample machines *)

Lemma bfs_accepts_shallowest_witness :
  ∃ m : nat,
    3 = Z.of_nat m ∧ 3 < 10
    ∧ (∀ j : nat, (j < m)%nat →
         ∃ fr, level "even" "no" Samples.even_ones "11" j = Val fr
               ∧ ∀ c, c ∈ fr → ¬ accepting ["yes"] c)
    ∧ ∃ pre c post,
        level "even" "no" Samples.even_ones "11" m = Val (pre ++ c :: post)
        ∧ (∀ x, x ∈ pre → ¬ accepting ["yes"] x)
        ∧ accepting ["yes"] c
        ∧ last [("", "even", "11"); ("1", "odd", "1"); ("11", "even", "_");
                ("11_", "yes", "_")] = Some c.
Proof.
  apply (bfs_accepts_shallowest 10 "even" ["yes"] "no" Samples.even_ones
           "11" 10 3 3).
  vm_compute. reflexivity.
Defined.

Lemma visit_without_rule_witness :
  expand "qr" Samples.detour ("a", "q1", "b") = Val [("a", "qr", "b")]
  ∧ visit 0 ["qa"] "qr" Samples.detour 1
      (BfsState 1 ([[("", "q0", "ab")]; [("a", "q1", "b")]] ++ [[]]) ∅)
      ("a", "q1", "b")
    = Continue (BfsState (1 + 1)
                  ([[("", "q0", "ab")]; [("a", "q1", "b")]]
                     ++ [[] ++ [("a", "qr", "b")]])
                  (<[("a", "qr", "b") := ("a", "q1", "b")]> ∅)).
Proof.
  apply (visit_without_rule ["qa"] "qr" Samples.detour 0 1 ("a", "q1", "b") 1
           [[("", "q0", "ab")]; [("a", "q1", "b")]] [] ∅).
  - reflexivity.
  - unfold accepting. simpl. intros H. apply list_elem_of_singleton in H.
    discriminate H.
  - discriminate.
  - vm_compute. reflexivity.
Defined.

Lemma parent_overwritten_witness :
  (∅ : gmap config config) !! ("a", "qa", "_") = None
  ∧ ∃ cs,
      expand "qr" Samples.detour ("a", "q1", "_") = Val cs
      ∧ (∀ c, c ∈ cs →
           before
             (BfsState 3
                ([[("", "q0", "a")]; [("a", "q1", "_"); ("a", "qa", "_")]]
                   ++ [[("a", "qa", "_")]])
                (<[("a", "qa", "_") := ("a", "q1", "_")]>
                   (<[("a", "qa", "_") := ("", "q0", "a")]>
                      (<[("a", "q1", "_") := ("", "q0", "a")]> ∅))))
           !! c = Some ("a", "q1", "_")).
Proof.
  split; [reflexivity|].
  destruct (parent_overwritten ["qa"] "qr" Samples.detour 0 1
              ("a", "q1", "_") 2
              [[("", "q0", "a")]; [("a", "q1", "_"); ("a", "qa", "_")]] []
              (<[("a", "qa", "_") := ("", "q0", "a")]>
                 (<[("a", "q1", "_") := ("", "q0", "a")]> ∅))
              (BfsState 3
                 ([[("", "q0", "a")]; [("a", "q1", "_"); ("a", "qa", "_")]]
                    ++ [[("a", "qa", "_")]])
                 (<[("a", "qa", "_") := ("a", "q1", "_")]>
                    (<[("a", "qa", "_") := ("", "q0", "a")]>
                       (<[("a", "q1", "_") := ("", "q0", "a")]> ∅)))))
    as (cs & Hcs & Hin & _).
  - reflexivity.
  - vm_compute. reflexivity.
  - exists cs. split; [exact Hcs | exact Hin].
Defined.

Lemma accept_before_reject_witness :
  visit 0 ["qa"; "qr"] "qr" Samples.detour 1
    (BfsState 1 [[("", "q0", "b")]; [("", "qr", "b")]; []]
       {[ ("", "qr", "b") := ("", "q0", "b") ]})
    ("", "qr", "b")
  = Return (path ← trace 0 ("", "qr", "b")
                     {[ ("", "qr", "b") := ("", "q0", "b") ]};
            mret (true, 1, 1, path))
  ∧ ∃ par tot, ∀ fuel,
      bfs fuel "q0" ["qa"; "qr"] "qr" Samples.detour "b" 2
      = (path ← trace fuel ("", "qr", "b") par; mret (true, 1, tot, path)).
Proof.
  destruct (accept_before_reject ["qa"; "qr"] "qr" Samples.detour
              ("", "qr", "b")) as [Hvisit Hbfs].
  - unfold accepting. simpl. rewrite !elem_of_cons. right. left. reflexivity.
  - reflexivity.
  - split.
    + exact (Hvisit 0%nat 1%nat
               (BfsState 1 [[("", "q0", "b")]; [("", "qr", "b")]; []]
                  {[ ("", "qr", "b") := ("", "q0", "b") ]})).
    + apply (Hbfs "q0" "b" 2 1%nat [] [] []).
      * lia.
      * intros j Hj. exists [("", "q0", "b")].
        split; [by replace j with 0%nat by lia|].
        intros x Hx. apply list_elem_of_singleton in Hx as ->.
        unfold accepting. simpl. rewrite !elem_of_cons, elem_of_nil.
        intros [H | [H | []]]; discriminate H.
      * vm_compute. reflexivity.
      * intros x Hx. inversion Hx.
      * reflexivity.
Defined.

(** ** Repeated configurations *)

Section repeated.

Lemma trace_cycle (parent : gmap config config) (c a b : config) :
  parent !! c = Some b → parent !! b = Some a → parent !! a = Some b →
  ∀ fuel, trace fuel c parent = OutOfFuel.
Proof.
  intros Hc Hb Ha fuel. unfold trace.
  destruct fuel as [|fuel]; simpl; rewrite Hc; [reflexivity|].
  destruct (trace_loop_cycle parent a b Ha Hb fuel [c; b]) as [_ ->].
  reflexivity.
Qed.

(** C2 fails on the code: with the machine [pingpong] and the input "ab",
    the initial configuration is generated again at level 2, so the
    parent map sends it to its own child and the child back to it.  The
    walk from the accepting configuration found at level 2 enters that
    cycle and never leaves it: whatever the number of iterations allowed,
    [trace] has not returned, and neither has [bfs]. *)
Theorem pingpong_trace_diverges (fuel : nat) :
  level "q0" "qr" Samples.pingpong "ab" 2
  = Val [("", "q0", "ab"); ("", "qa", "ab")]
  ∧ bfs fuel "q0" ["qa"] "qr" Samples.pingpong "ab" 3
    = (path ← trace fuel ("", "qa", "ab") Samples.pingpong_parents;
       mret (true, 2, 4, path))
  ∧ Samples.pingpong_parents !! ("", "q0", "ab") = Some ("a", "q1", "b")
  ∧ Samples.pingpong_parents !! ("a", "q1", "b") = Some ("", "q0", "ab")
  ∧ trace fuel ("", "qa", "ab") Samples.pingpong_parents = OutOfFuel
  ∧ bfs fuel "q0" ["qa"] "qr" Samples.pingpong "ab" 3 = OutOfFuel.
Proof.
  assert (Hbfs : bfs fuel "q0" ["qa"] "qr" Samples.pingpong "ab" 3
                 = (path ← trace fuel ("", "qa", "ab")
                             Samples.pingpong_parents;
                    mret (true, 2, 4, path))).
  { vm_compute. reflexivity. }
  assert (Htrace : trace fuel ("", "qa", "ab") Samples.pingpong_parents
                   = OutOfFuel).
  { apply (trace_cycle _ _ ("", "q0", "ab") ("a", "q1", "b"));
      reflexivity. }
  split; [vm_compute; reflexivity|].
  split; [exact Hbfs|].
  split; [reflexivity|]. split; [reflexivity|].
  split; [exact Htrace|].
  rewrite Hbfs, Htrace. reflexivity.
Qed.

(** C3 fails on the code: with the machine [detour] and the input "a",
    the accepting configuration of level 1 is generated a second time,
    by its neighbour in the level-1 frontier, before it is scanned.  Its
    parent entry then points into level 1, and the path reported with
    depth 1 holds three configurations, not two. *)
Theorem detour_path_too_long (fuel : nat) :
  level "q0" "qr" Samples.detour "a" 1
  = Val [("a", "q1", "_"); ("a", "qa", "_")]
  ∧ bfs (2 + fuel) "q0" ["qa"] "qr" Samples.detour "a" 2
    = Val (true, 1, 3,
           [("", "q0", "a"); ("a", "q1", "_"); ("a", "qa", "_")])
  ∧ Z.of_nat
      (length [("", "q0", "a"); ("a", "q1", "_"); ("a", "qa", "_")])
    ≠ 1 + 1.
Proof.
  split; [vm_compute; reflexivity|].
  split; [destruct fuel; vm_compute; reflexivity | discriminate].
Qed.

End repeated.

(** * Further properties of the tape operation *)

Section tape_more.

Lemma app_assoc_str (s t u : string) : (s +:+ t) +:+ u = s +:+ (t +:+ u).
Proof.
  induction s as [|a s IH]; [reflexivity|].
  rewrite !app_cons. f_equal. exact IH.
Qed.

Lemma app_empty_r (s : string) : s +:+ "" = s.
Proof.
  induction s as [|a s IH]; [reflexivity|]. rewrite app_cons. by f_equal.
Qed.

(** After the write, [right] is empty only when nothing is written over at
    most one cell. *)
Lemma write_empty (right write_char : string) :
  write right write_char = "" ↔ write_char = "" ∧ Py.len right ≤ 1.
Proof.
  unfold write. destruct right as [|a r]; simpl.
  - rewrite len_empty. split; [intros ->; split; [done | lia] | tauto].
  - rewrite len_cons. pose proof (len_nonneg r).
    destruct write_char as [|c w].
    + rewrite app_empty_l. split.
      * intros ->. rewrite len_empty. split; [done | lia].
      * intros [_ Hle]. destruct r; [done|]. rewrite len_cons in Hle.
        pose proof (len_nonneg r). lia.
    + rewrite app_cons. split; [discriminate | intros [? _]; discriminate].
Qed.

Lemma index0_written (s : string) :
  s ≠ "" → ∃ c, s = String c (Py.from1 s) ∧ Py.index0 s = Val (String c "").
Proof. destruct s as [|c r]; [done|]. intros _. by exists c. Qed.

Lemma move_raises_cases (left right write_char direction : string) :
  move left right write_char direction = IndexError
  ↔ direction = "R" ∧ write_char = "" ∧ Py.len right ≤ 1.
Proof.
  rewrite <- write_empty. unfold move.
  destruct (String.eqb_spec direction "R") as [-> | Hd].
  - destruct (write right write_char) as [|c r] eqn:E.
    + simpl. split; [done | reflexivity].
    + simpl Py.index0.
      destruct (1 <? Py.len (String c r)); simpl;
        (split; [discriminate | intros [_ ?]; discriminate]).
  - split; [|tauto]. intros H. exfalso.
    destruct (Py.truthy left) eqn:Hl; [|discriminate].
    destruct (negb (Py.truthy (write right write_char))
              || String.eqb (write right write_char) "_"); [discriminate|].
    apply truthy_true in Hl. destruct (last_split left Hl) as (c & Hc & _).
    rewrite Hc in H. discriminate.
Qed.

(** [move] has no loop: it never runs out of fuel. *)
Lemma move_no_fuel (left right write_char direction : string) :
  move left right write_char direction ≠ OutOfFuel.
Proof.
  unfold move.
  destruct (String.eqb direction "R").
  - destruct (write right write_char) as [|c r]; simpl Py.index0.
    + destruct (1 <? Py.len ""); discriminate.
    + destruct (1 <? Py.len (String c r)); discriminate.
  - destruct (Py.truthy left) eqn:Hl; [|discriminate].
    destruct (negb (Py.truthy (write right write_char))
              || String.eqb (write right write_char) "_"); [discriminate|].
    apply truthy_true in Hl. destruct (last_split left Hl) as (c & Hc & _).
    rewrite Hc. discriminate.
Qed.

(** X1: [move] raises [IndexError] exactly when it moves right after a write
    that left [right] empty, that is when the write string is empty and
    [right] had at most one cell; in every other case it returns a pair of
    sequences. *)
Theorem move_raises_iff (left right write_char direction : string) :
  (move left right write_char direction = IndexError
   ↔ direction = "R" ∧ write_char = "" ∧ Py.len right ≤ 1)
  ∧ (¬ (direction = "R" ∧ write_char = "" ∧ Py.len right ≤ 1) →
     ∃ new_left new_right,
       move left right write_char direction = Val (new_left, new_right)).
Proof.
  split; [apply move_raises_cases|].
  intros Hn.
  destruct (move left right write_char direction) as [[nl nr]| |] eqn:E.
  - by exists nl, nr.
  - by apply move_raises_cases in E.
  - by apply move_no_fuel in E.
Qed.

Lemma move_raises_iff_witness :
  move "" "a" "" "R" = IndexError
  ∧ ∃ new_left new_right, move "" "a" "" "L" = Val (new_left, new_right).
Proof.
  split.
  - apply (move_raises_iff "" "a" "" "R"). split; [reflexivity|].
    split; [reflexivity|]. vm_compute. discriminate.
  - apply (move_raises_iff "" "a" "" "L"). intros (H & _). discriminate H.
Defined.

Lemma move_returns_nonempty (left right write_char direction : string)
  (new_left new_right : string) :
  move left right write_char direction = Val (new_left, new_right) →
  new_right ≠ "".
Proof.
  unfold move.
  destruct (String.eqb direction "R").
  - destruct (write right write_char) as [|c r]; [discriminate|].
    simpl Py.index0. simpl Py.from1. rewrite len_cons.
    destruct (Z.ltb_spec 1 (1 + Py.len r)) as [Hlt | Hge]; simpl;
      intros H; injection H as <- <-; [|discriminate].
    intros ->. rewrite len_empty in Hlt. lia.
  - destruct (Py.truthy left) eqn:Hl.
    + destruct (negb (Py.truthy (write right write_char))
                || String.eqb (write right write_char) "_");
        [intros H; injection H as <- <-; discriminate|].
      apply truthy_true in Hl. destruct (last_split left Hl) as (c & Hc & _).
      rewrite Hc. simpl. intros H. injection H as <- <-. discriminate.
    + simpl. intros H. injection H as <- <-. discriminate.
Qed.

(** X2: whatever is written, the [right] that [move] returns is never
    empty: there is always a cell under the head. *)
Theorem move_right_nonempty (left right write_char direction : string)
  (new_left new_right : string) :
  move left right write_char direction = Val (new_left, new_right) →
  new_right ≠ "".
Proof. apply move_returns_nonempty. Qed.

Lemma move_right_nonempty_witness : "_ybc" ≠ "".
Proof. exact (move_right_nonempty "" "abc" "y" "L" "" "_ybc" eq_refl). Defined.

(** X3: [move] loses no cell.  Read from left to right, the two sequences
    it returns are the old [left] followed by the written [right], with one
    blank added on the side where the head stepped off the recorded cells,
    or in place of a written [right] that is empty. *)
Theorem move_keeps_contents (left right write_char direction : string)
  (new_left new_right : string) :
  move left right write_char direction = Val (new_left, new_right) →
  let written := write right write_char in
  new_left +:+ new_right
  = if String.eqb direction "R" then
      left +:+ written +:+ (if 1 <? Py.len written then "" else "_")
    else if Py.truthy left then
      left +:+ (if Py.truthy written then written else "_")
    else
      "_" +:+ written.
Proof.
  intros H written. unfold move in H. fold written in H.
  destruct (String.eqb direction "R").
  - destruct written as [|c r]; [discriminate|].
    simpl Py.index0 in H. simpl Py.from1 in H.
    destruct (Z.ltb_spec 1 (Py.len (String c r))) as [Hlt | Hge];
      simpl in H; injection H as <- <-.
    + rewrite app_assoc_str, app_cons, app_empty_l, app_empty_r. reflexivity.
    + assert (r = "") as ->.
      { destruct r as [|b r]; [done|]. rewrite !len_cons in Hge.
        pose proof (len_nonneg r). lia. }
      rewrite app_assoc_str. reflexivity.
  - destruct (Py.truthy left) eqn:Hl.
    + destruct (Py.truthy written) eqn:Hw; simpl in H.
      * destruct (String.eqb_spec written "_") as [E | _].
        -- injection H as <- <-. rewrite E. reflexivity.
        -- apply truthy_true in Hl.
           destruct (last_split left Hl) as (c & Hc & Hsplit).
           rewrite Hc in H. simpl in H. injection H as <- <-.
           rewrite Hsplit at 2. rewrite app_assoc_str. reflexivity.
      * injection H as <- <-. reflexivity.
    + simpl in H. injection H as <- <-.
      apply truthy_false in Hl. subst left. reflexivity.
Qed.

Lemma move_keeps_contents_witness :
  "x" +:+ "zybc" = "xz" +:+ (if Py.truthy (write "abc" "y")
                             then write "abc" "y" else "_").
Proof.
  exact (move_keeps_contents "xz" "abc" "y" "L" "x" "zybc" eq_refl).
Defined.

(** Only the direction "R" moves right; every other direction string
    moves left, as "L" does. *)
Lemma move_other_direction (left right write_char direction : string) :
  direction ≠ "R" →
  move left right write_char direction = move left right write_char "L".
Proof.
  intros Hd. unfold move. rewrite (direction_left _ Hd). reflexivity.
Qed.

Lemma move_other_direction_witness :
  move "xz" "abc" "y" "r" = move "xz" "abc" "y" "L".
Proof. apply (move_other_direction "xz" "abc" "y" "r"). discriminate. Defined.

(** X4: a step to the right over recorded cells followed by a step to the
    left brings the head back over the first cell: both written symbols are
    on the tape and [left] is what it was.  The exception is a second write
    that leaves the lone blank "_" as [right]: then the head stays where it
    is. *)
Theorem move_right_then_left (left rest : string) (a b c1 c2 : ascii) :
  move left (String a (String b rest)) (String c1 "") "R"
  = Val (left +:+ String c1 "", String b rest)
  ∧ move (left +:+ String c1 "") (String b rest) (String c2 "") "L"
    = if String.eqb (String c2 rest) "_"
      then Val (left +:+ String c1 "", "_")
      else Val (left, String c1 (String c2 rest)).
Proof.
  split.
  - unfold move, write. simpl Py.truthy. simpl Py.from1. cbv iota.
    rewrite app_cons, app_empty_l. simpl String.eqb.
    rewrite !len_cons. pose proof (len_nonneg rest).
    destruct (Z.ltb_spec 1 (1 + (1 + Py.len rest))); [reflexivity | lia].
  - unfold move, write. simpl Py.truthy at 1. simpl Py.from1. cbv iota.
    rewrite app_cons, app_empty_l. simpl String.eqb at 1. cbv iota.
    assert (Ht : Py.truthy (left +:+ String c1 "") = true).
    { apply truthy_true. destruct left; discriminate. }
    rewrite Ht. simpl Py.truthy. simpl negb. rewrite orb_false_l.
    destruct (String.eqb (String c2 rest) "_"); [reflexivity|].
    destruct (last_snoc left c1) as [-> ->]. reflexivity.
Qed.

(** X5: a step to the left followed by a step to the right brings the head
    back over the cell it started on, which holds the first written symbol;
    the cell to its left holds the second.  This needs a non-empty [left]
    and a first write that does not leave the lone blank "_". *)
Theorem move_left_then_right (left rest : string) (x a c1 c2 : ascii) :
  String c1 rest ≠ "_" →
  move (left +:+ String x "") (String a rest) (String c1 "") "L"
  = Val (left, String x (String c1 rest))
  ∧ move left (String x (String c1 rest)) (String c2 "") "R"
    = Val (left +:+ String c2 "", String c1 rest).
Proof.
  intros Hne. split.
  - unfold move, write. simpl Py.truthy at 1. simpl Py.from1. cbv iota.
    rewrite app_cons, app_empty_l. simpl String.eqb at 1. cbv iota.
    assert (Ht : Py.truthy (left +:+ String x "") = true).
    { apply truthy_true. destruct left; discriminate. }
    rewrite Ht. simpl Py.truthy. simpl negb. rewrite orb_false_l.
    apply String.eqb_neq in Hne. rewrite Hne.
    destruct (last_snoc left x) as [-> ->]. reflexivity.
  - unfold move, write. simpl Py.truthy. simpl Py.from1. cbv iota.
    rewrite app_cons, app_empty_l. simpl String.eqb.
    rewrite !len_cons. pose proof (len_nonneg rest).
    destruct (Z.ltb_spec 1 (1 + (1 + Py.len rest))); [reflexivity | lia].
Qed.

Lemma move_left_then_right_witness :
  move ("l" +:+ "x") "ar" "c" "L" = Val ("l", "xcr")
  ∧ move "l" "xcr" "d" "R" = Val ("l" +:+ "d", "cr").
Proof. apply (move_left_then_right "l" "r" "x" "a" "c" "d"). discriminate. Defined.

End tape_more.

(** * Further properties of path reconstruction *)

Section trace_more.

Variable parent : gmap config config.

(** [trace] returns the walk, reversed. *)
Lemma trace_loop_ancestry (fuel : nat) (t : config) (acc : list config) :
  trace_loop fuel t parent (acc ++ [t])
  = (l ← ancestry fuel parent t; mret (acc ++ l)).
Proof.
  revert t acc. induction fuel as [|fuel IH]; intros t acc; simpl;
    destruct (parent !! t) as [p|]; try reflexivity.
  rewrite IH. destruct (ancestry fuel parent p) as [l| |]; simpl;
    [|reflexivity..].
  unfold mret, outcome_ret. by rewrite <- app_assoc.
Qed.

Lemma trace_ancestry (fuel : nat) (t : config) :
  trace fuel t parent = (l ← ancestry fuel parent t; mret (reverse l)).
Proof.
  unfold trace. pose proof (trace_loop_ancestry fuel t []) as H.
  rewrite app_nil_l in H. rewrite H.
  destruct (ancestry fuel parent t); reflexivity.
Qed.

Lemma ancestry_more_fuel (fuel fuel' : nat) (t : config) (l : list config) :
  ancestry fuel parent t = Val l → (fuel ≤ fuel')%nat →
  ancestry fuel' parent t = Val l.
Proof.
  revert fuel' t l. induction fuel as [|fuel IH]; intros fuel' t l; simpl.
  - destruct (parent !! t) as [p|] eqn:E; [discriminate|].
    intros H _. destruct fuel'; simpl; by rewrite E.
  - destruct (parent !! t) as [p|] eqn:E.
    + destruct (ancestry fuel parent p) as [l0| |] eqn:E0; try discriminate.
      intros H Hle. destruct fuel' as [|fuel']; [lia|].
      simpl. rewrite E. rewrite (IH fuel' p l0) by (done || lia). exact H.
    + intros H _. destruct fuel'; simpl; by rewrite E.
Qed.

Lemma ancestry_shape (fuel : nat) (t : config) (l : list config) :
  ancestry fuel parent t = Val l →
  head l = Some t
  ∧ (∃ root, last l = Some root ∧ parent !! root = None)
  ∧ (∀ (i : nat) (c p : config),
       l !! i = Some c → l !! S i = Some p → parent !! c = Some p)
  ∧ (length l ≤ S fuel)%nat.
Proof.
  revert t l. induction fuel as [|fuel IH]; intros t l; simpl;
    destruct (parent !! t) as [p|] eqn:E; try discriminate.
  - intros H. injection H as <-. split; [done|].
    split; [by exists t|]. split; [|simpl; lia].
    intros [|i] c q H1 H2; discriminate.
  - destruct (ancestry fuel parent p) as [l0| |] eqn:E0; try discriminate.
    intros H. injection H as <-.
    destruct (IH p l0 E0) as (Hhead & (root & Hlast & Hroot) & Hlink & Hlen).
    split; [done|]. split.
    + exists root. split; [|done].
      destruct l0 as [|x l0]; [discriminate|]. exact Hlast.
    + split; [|simpl; lia].
      intros [|i] c q H1 H2; simpl in H1, H2.
      * injection H1 as <-. rewrite <- head_lookup, Hhead in H2.
        injection H2 as <-. exact E.
      * by eapply Hlink.
  - intros H. injection H as <-. split; [done|].
    split; [by exists t|]. split; [|simpl; lia].
    intros [|i] c q H1 H2; discriminate.
Qed.

(** The walk from an element of a walk is the rest of that walk. *)
Lemma ancestry_suffix (fuel : nat) (t : config) (l : list config)
  (i : nat) (x : config) :
  ancestry fuel parent t = Val l → l !! i = Some x →
  ancestry fuel parent x = Val (drop i l).
Proof.
  revert t l i. induction fuel as [|fuel IH]; intros t l i H Hx.
  - simpl in H. destruct (parent !! t) as [p|] eqn:E; [discriminate|].
    injection H as <-. destruct i as [|i]; [|discriminate].
    injection Hx as <-. simpl. by rewrite E.
  - pose proof H as H0. simpl in H.
    destruct (parent !! t) as [p|] eqn:E.
    + destruct (ancestry fuel parent p) as [l0| |] eqn:E0; try discriminate.
      injection H as <-. destruct i as [|i].
      * injection Hx as <-. exact H0.
      * change (drop (S i) (t :: l0)) with (drop i l0).
        apply (ancestry_more_fuel fuel); [|lia]. by eapply IH.
    + injection H as <-. destruct i as [|i]; [|discriminate].
      injection Hx as <-. exact H0.
Qed.

Lemma ancestry_nodup (fuel : nat) (t : config) (l : list config) :
  ancestry fuel parent t = Val l → NoDup l.
Proof.
  revert t l. induction fuel as [|fuel IH]; intros t l H.
  - simpl in H. destruct (parent !! t); [discriminate|].
    injection H as <-. apply NoDup_singleton.
  - pose proof H as H0. simpl in H.
    destruct (parent !! t) as [p|] eqn:E.
    + destruct (ancestry fuel parent p) as [l0| |] eqn:E0; try discriminate.
      injection H as <-. apply NoDup_cons. split; [|by eapply IH].
      intros [i Hi]%list_elem_of_lookup.
      pose proof (ancestry_suffix fuel p l0 i t E0 Hi) as Hs.
      apply (ancestry_more_fuel _ (S fuel)) in Hs; [|lia].
      rewrite H0 in Hs. injection Hs as Hs.
      apply (f_equal length) in Hs. rewrite length_drop in Hs.
      simpl in Hs. lia.
    + injection H as <-. apply NoDup_singleton.
Qed.

(** X6: a path returned by [trace] is a chain of parent links: it starts at
    a configuration without entry in the parent map, each element is the
    recorded parent of the next, it ends at the configuration asked for,
    and it is no longer than the number of loop iterations plus one. *)
Theorem trace_path_chain (fuel : nat) (t : config) (path : list config) :
  trace fuel t parent = Val path →
  (∃ root, head path = Some root ∧ parent !! root = None)
  ∧ linked parent path
  ∧ last path = Some t
  ∧ (length path ≤ S fuel)%nat.
Proof.
  rewrite trace_ancestry.
  destruct (ancestry fuel parent t) as [l| |] eqn:E; try discriminate.
  intros H. injection H as <-.
  destruct (ancestry_shape fuel t l E)
    as (Hhead & (root & Hlast & Hroot) & Hlink & Hlen).
  split; [exists root; by rewrite head_reverse|].
  split; [|split; [by rewrite last_reverse | by rewrite length_reverse]].
  intros i p c Hp Hc.
  apply reverse_lookup_Some in Hp as [Hp Hi].
  apply reverse_lookup_Some in Hc as [Hc Hi'].
  apply (Hlink (length l - S (S i))%nat); [exact Hc|].
  replace (S (length l - S (S i))) with (length l - S i)%nat by lia.
  exact Hp.
Qed.

(** X7: a path returned by [trace] never holds the same configuration
    twice. *)
Theorem trace_path_nodup (fuel : nat) (t : config) (path : list config) :
  trace fuel t parent = Val path → NoDup path.
Proof.
  rewrite trace_ancestry.
  destruct (ancestry fuel parent t) as [l| |] eqn:E; try discriminate.
  intros H. injection H as <-.
  rewrite reverse_Permutation. by eapply ancestry_nodup.
Qed.

(** X8: when some measure strictly decreases along every parent entry,
    [trace] returns after at most as many iterations as the measure of the
    configuration it starts from. *)
Theorem trace_terminates_ranked (rank : config → nat) (fuel : nat)
  (t : config) :
  (∀ c p, parent !! c = Some p → (rank p < rank c)%nat) →
  (rank t ≤ fuel)%nat →
  ∃ path, trace fuel t parent = Val path ∧ (length path ≤ S (rank t))%nat.
Proof.
  intros Hrank Hfuel. rewrite trace_ancestry.
  assert (∃ l, ancestry fuel parent t = Val l
               ∧ (length l ≤ S (rank t))%nat) as (l & -> & Hlen).
  { revert t Hfuel. induction fuel as [|fuel IH]; intros t Hfuel; simpl;
      destruct (parent !! t) as [p|] eqn:E.
    - apply Hrank in E. lia.
    - exists [t]. split; [done | simpl; lia].
    - pose proof (Hrank _ _ E) as Hlt.
      destruct (IH p) as (l0 & -> & Hlen); [lia|].
      exists (t :: l0). split; [done | simpl; lia].
    - exists [t]. split; [done | simpl; lia]. }
  exists (reverse l). split; [done | by rewrite length_reverse].
Qed.

End trace_more.

Lemma trace_path_chain_witness :
  (∃ root, head [("", "q0", "a"); ("a", "q1", "_")] = Some root
           ∧ ({[ ("a", "q1", "_") := ("", "q0", "a") ]} : gmap config config)
             !! root = None)
  ∧ linked {[ ("a", "q1", "_") := ("", "q0", "a") ]}
      [("", "q0", "a"); ("a", "q1", "_")]
  ∧ last [("", "q0", "a"); ("a", "q1", "_")] = Some ("a", "q1", "_")
  ∧ (length [("", "q0", "a"); ("a", "q1", "_")] ≤ 2)%nat.
Proof.
  apply (trace_path_chain {[ ("a", "q1", "_") := ("", "q0", "a") ]} 1
           ("a", "q1", "_")).
  vm_compute. reflexivity.
Defined.

Lemma trace_path_nodup_witness :
  NoDup [("", "q0", "a"); ("a", "q1", "_")].
Proof.
  apply (trace_path_nodup {[ ("a", "q1", "_") := ("", "q0", "a") ]} 1
           ("a", "q1", "_")).
  vm_compute. reflexivity.
Defined.

Lemma trace_terminates_ranked_witness :
  ∃ path,
    trace 1 ("a", "q1", "_") {[ ("a", "q1", "_") := ("", "q0", "a") ]}
    = Val path
    ∧ (length path ≤ 2)%nat.
Proof.
  apply (trace_terminates_ranked {[ ("a", "q1", "_") := ("", "q0", "a") ]}
           (λ c, String.length c.1.1) 1 ("a", "q1", "_")).
  - intros c p H. apply lookup_singleton_Some in H as [<- <-]. simpl. lia.
  - simpl. lia.
Defined.

(** * Further properties of the search *)

Section scan_more.

Variables (fuel : nat) (accept : list string) (reject : string).
Variable transitions : gmap (string * string) (list rule).
Variable depth : nat.

Local Abbreviation scan := (for_each (visit fuel accept reject transitions depth)).

Lemma successors_no_fuel (t : config) (moves : list rule) :
  successors t moves ≠ OutOfFuel.
Proof.
  induction moves as [|[[ns w] d] moves IH]; [discriminate|].
  simpl. unfold successor, move.
  destruct (String.eqb d "R").
  - destruct (1 <? Py.len (write t.2 w));
      destruct (Py.index0 (write t.2 w)) as [c| |] eqn:E; simpl;
      try discriminate;
      try (destruct (write t.2 w); discriminate);
      destruct (successors t moves); simpl; done.
  - destruct (Py.truthy t.1.1) eqn:Hl.
    + destruct (negb (Py.truthy (write t.2 w))
                || String.eqb (write t.2 w) "_"); simpl.
      * destruct (successors t moves); simpl; done.
      * apply truthy_true in Hl.
        destruct (last_split _ Hl) as (c & -> & _). simpl.
        destruct (successors t moves); simpl; done.
    + simpl. destruct (successors t moves); simpl; done.
Qed.

Lemma expand_no_fuel (t : config) : expand reject transitions t ≠ OutOfFuel.
Proof.
  unfold expand. destruct (String.eqb t.1.2 reject); [discriminate|].
  destruct (default [] (transitions !! (t.1.2, head_symbol t.2)));
    [discriminate|]. apply successors_no_fuel.
Qed.

(** The state a scan that falls through leaves behind. *)
Lemma scan_continue_state (frontier : list config) (tot : Z)
  (done : list (list config)) (nxt : list config)
  (par : gmap config config) (s' : bfs_state) :
  length done = S depth →
  scan frontier (BfsState tot (done ++ [nxt]) par) = Continue s' →
  (∀ c, c ∈ frontier → ¬ accepting accept c)
  ∧ ∃ cs, next_level reject transitions frontier = Val cs
          ∧ s' = BfsState (tot + Z.of_nat (length cs)) (done ++ [nxt ++ cs])
                   (scan_parents reject transitions frontier par).
Proof.
  intros Hlen. revert tot nxt par.
  induction frontier as [|t frontier IH]; intros tot nxt par H.
  - simpl in H. injection H as <-. split; [intros c Hc; inversion Hc|].
    exists []. simpl. rewrite Z.add_0_r, app_nil_r. done.
  - rewrite for_each_cons, visit_eq in H by done.
    destruct (bool_decide (state_of t ∈ accept)) eqn:Hacc; [discriminate|].
    apply bool_decide_eq_false in Hacc.
    destruct (expand reject transitions t) as [cs| |] eqn:E;
      try discriminate.
    unfold grown in H. apply IH in H as (Hall & more & Hnext & ->).
    split.
    + intros c [-> | Hc]%elem_of_cons; [exact Hacc | by apply Hall].
    + exists (cs ++ more). simpl. rewrite E, Hnext. simpl.
      split; [reflexivity|].
      rewrite length_app, <- app_assoc, Nat2Z.inj_add, Z.add_assoc.
      reflexivity.
Qed.

(** The two ways a scan leaves the function: at the first accepting
    configuration, or at an expansion that raises. *)
Lemma scan_return_cases (frontier : list config) (tot : Z)
  (done : list (list config)) (nxt : list config)
  (par : gmap config config) (r : outcome report) :
  length done = S depth →
  scan frontier (BfsState tot (done ++ [nxt]) par) = Return r →
  ∃ pre c post cs,
    frontier = pre ++ c :: post
    ∧ (∀ x, x ∈ pre → ¬ accepting accept x)
    ∧ next_level reject transitions pre = Val cs
    ∧ ((accepting accept c
        ∧ r = (path ← trace fuel c (scan_parents reject transitions pre par);
               mret (true, Z.of_nat depth,
                     tot + Z.of_nat (length cs), path)))
       ∨ (¬ accepting accept c
          ∧ expand reject transitions c = IndexError
          ∧ r = IndexError)).
Proof.
  intros Hlen. revert tot nxt par.
  induction frontier as [|t frontier IH]; intros tot nxt par H.
  - discriminate.
  - rewrite for_each_cons, visit_eq in H by done.
    destruct (bool_decide (state_of t ∈ accept)) eqn:Hacc.
    + apply bool_decide_eq_true in Hacc. injection H as <-.
      exists [], t, frontier, []. split; [reflexivity|].
      split; [intros x Hx; inversion Hx|]. split; [reflexivity|].
      left. split; [exact Hacc|]. simpl. by rewrite Z.add_0_r.
    + apply bool_decide_eq_false in Hacc.
      destruct (expand reject transitions t) as [cs| |] eqn:E.
      * unfold grown in H.
        apply IH in H as (pre & c & post & more & -> & Hpre & Hnext & Hr).
        exists (t :: pre), c, post, (cs ++ more). split; [reflexivity|].
        split.
        { intros x [-> | Hx]%elem_of_cons; [exact Hacc | by apply Hpre]. }
        split; [simpl; by rewrite E, Hnext|].
        simpl scan_parents. rewrite E.
        rewrite length_app, Nat2Z.inj_add, Z.add_assoc. exact Hr.
      * injection H as <-.
        exists [], t, frontier, []. split; [reflexivity|].
        split; [intros x Hx; inversion Hx|]. split; [reflexivity|].
        right. done.
      * by apply expand_no_fuel in E.
Qed.

End scan_more.
Section search_more.

Variables (start : string) (accept : list string) (reject : string).
Variable transitions : gmap (string * string) (list rule).
Variable input : string.

Local Abbreviation level_at := (level start reject transitions input).
Local Abbreviation front := (frontier_at start reject transitions input).
Local Abbreviation gen := (generated start reject transitions input).
Local Abbreviation parents := (parents_upto start reject transitions input).
Local Abbreviation levels := (levels_upto start reject transitions input).
Local Abbreviation at_start := (state_at start reject transitions input).

(** Levels 0 to [m] exist: no expansion raised on the way. *)
Local Abbreviation defined_upto m :=
  (∀ j : nat, (j ≤ m)%nat → level_at j = Val (front j)).

(** No configuration of a level below [m] is accepting. *)
Local Abbreviation quiet_below m :=
  (∀ (j : nat) (c : config), (j < m)%nat → c ∈ front j → ¬ accepting accept c).

Lemma front_defined (j : nat) (fr : list config) :
  level_at j = Val fr → front j = fr.
Proof. unfold frontier_at. by intros ->. Qed.

Lemma level_front (j : nat) (fr : list config) :
  level_at j = Val fr → level_at j = Val (front j).
Proof. intros H. by rewrite (front_defined j fr H). Qed.

Lemma front_next (j : nat) (cs : list config) :
  level_at j = Val (front j) →
  next_level reject transitions (front j) = Val cs →
  level_at (S j) = Val cs.
Proof. intros Hj Hn. simpl. by rewrite Hj. Qed.

Lemma level_defined_before (j : nat) (fr : list config) :
  level_at (S j) = Val fr →
  level_at j = Val (front j)
  ∧ next_level reject transitions (front j) = Val fr.
Proof.
  simpl. destruct (level_at j) as [fr0| |] eqn:E; try discriminate.
  simpl. intros H. by rewrite (front_defined j fr0 E).
Qed.

Lemma levels_length (k : nat) : length (levels k) = S k.
Proof.
  induction k as [|k IH]; [reflexivity|].
  simpl. rewrite length_app, IH. simpl. lia.
Qed.

Lemma levels_last (k : nat) : levels k !! k = Some (front k).
Proof.
  destruct k as [|k]; [reflexivity|].
  simpl. apply list_lookup_middle. by rewrite levels_length.
Qed.

(** What the loop of line 92 does from iteration [k] on, for [n]
    iterations: it falls through with the state of iteration [k + n], or
    it returns at some level [m]: because the frontier is empty, because
    a configuration of the frontier is accepting, or because an expansion
    raised. *)
Lemma search_cases (fuel n k : nat) :
  defined_upto k → quiet_below k →
  match for_each (explore fuel accept reject transitions) (seq k n)
          (at_start k) with
  | Continue s' =>
      s' = at_start (k + n)
      ∧ defined_upto (k + n) ∧ quiet_below (k + n)
      ∧ ∀ j : nat, (k ≤ j < k + n)%nat → front j ≠ []
  | Return r =>
      ∃ m : nat,
        (k ≤ m < k + n)%nat
        ∧ defined_upto m ∧ quiet_below m
        ∧ (∀ j : nat, (k ≤ j < m)%nat → front j ≠ [])
        ∧ ((front m = [] ∧ r = Val (false, Z.of_nat m, gen m, []))
           ∨ ∃ pre c post cs,
               front m = pre ++ c :: post
               ∧ (∀ x, x ∈ pre → ¬ accepting accept x)
               ∧ next_level reject transitions pre = Val cs
               ∧ ((accepting accept c
                   ∧ r = (path ← trace fuel c
                                   (scan_parents reject transitions pre
                                      (parents m));
                          mret (true, Z.of_nat m,
                                gen m + Z.of_nat (length cs), path)))
                  ∨ (¬ accepting accept c
                     ∧ expand reject transitions c = IndexError
                     ∧ r = IndexError)))
  end.
Proof.
  revert k. induction n as [|n IH]; intros k Hdef Hquiet.
  - simpl. rewrite Nat.add_0_r. split; [reflexivity|].
    split; [exact Hdef|]. split; [exact Hquiet|]. intros j Hj. lia.
  - simpl seq. rewrite for_each_cons. unfold explore at 1.
    unfold state_at at 1. simpl queue. rewrite levels_last.
    destruct (front k) as [|t fr] eqn:Efr.
    { exists k. split; [lia|]. split; [exact Hdef|]. split; [exact Hquiet|].
      split; [intros j Hj; lia|]. left. by rewrite Efr. }
    cbv beta iota zeta. simpl total. simpl before.
    destruct (for_each (visit fuel accept reject transitions k) (t :: fr)
                (BfsState (gen k) (levels k ++ [[]]) (parents k)))
      as [s'|r] eqn:E.
    + apply scan_continue_state in E as (Hall & cs & Hnext & ->);
        [|by rewrite levels_length].
      rewrite <- Efr in Hnext.
      pose proof (front_next k cs (Hdef k (Nat.le_refl k)) Hnext) as Hlev.
      pose proof (front_defined (S k) cs Hlev) as Hfront.
      assert (Hstate : BfsState (gen k + Z.of_nat (length cs))
                         (levels k ++ [[] ++ cs])
                         (scan_parents reject transitions (t :: fr) (parents k))
                       = at_start (S k)).
      { unfold state_at. simpl. rewrite Hfront, Efr. reflexivity. }
      rewrite Hstate.
      assert (Hdef' : defined_upto (S k)).
      { intros j Hj. destruct (decide (j = S k)) as [-> | Hne].
        - by rewrite Hfront.
        - apply Hdef. lia. }
      assert (Hquiet' : quiet_below (S k)).
      { intros j c Hj Hc. destruct (decide (j = k)) as [-> | Hne].
        - apply Hall. by rewrite <- Efr.
        - apply (Hquiet j); [lia | exact Hc]. }
      specialize (IH (S k) Hdef' Hquiet').
      destruct (for_each (explore fuel accept reject transitions)
                  (seq (S k) n) (at_start (S k))) as [s''|r].
      * destruct IH as (-> & Hd & Hq & Hne).
        replace (k + S n)%nat with (S k + n)%nat by lia.
        split; [reflexivity|]. split; [exact Hd|]. split; [exact Hq|].
        intros j Hj. destruct (decide (j = k)) as [-> | Hjk].
        -- by rewrite Efr.
        -- apply Hne. lia.
      * destruct IH as (m & Hm & Hd & Hq & Hne & Hcases).
        exists m. split; [lia|]. split; [exact Hd|]. split; [exact Hq|].
        split; [|exact Hcases].
        intros j Hj. destruct (decide (j = k)) as [-> | Hjk].
        -- by rewrite Efr.
        -- apply Hne. lia.
    + apply scan_return_cases in E
        as (pre & c & post & cs & Hfr & Hpre & Hnext & Hr);
        [|by rewrite levels_length].
      exists k. split; [lia|]. split; [exact Hdef|]. split; [exact Hquiet|].
      split; [intros j Hj; lia|]. right.
      exists pre, c, post, cs. rewrite Efr. done.
Qed.

(** The same, for a whole run of [bfs] with a positive bound. *)
Lemma bfs_cases (fuel : nat) (max_steps : Z) :
  0 < max_steps →
  (∃ n : nat,
     max_steps = Z.of_nat n
     ∧ bfs fuel start accept reject transitions input max_steps
       = Val (false, max_steps, gen n, [])
     ∧ defined_upto n ∧ quiet_below n
     ∧ ∀ j : nat, (j < n)%nat → front j ≠ [])
  ∨ ∃ m : nat,
      Z.of_nat m < max_steps
      ∧ defined_upto m ∧ quiet_below m
      ∧ (∀ j : nat, (j < m)%nat → front j ≠ [])
      ∧ ((front m = []
          ∧ bfs fuel start accept reject transitions input max_steps
            = Val (false, Z.of_nat m, gen m, []))
         ∨ ∃ pre c post cs,
             front m = pre ++ c :: post
             ∧ (∀ x, x ∈ pre → ¬ accepting accept x)
             ∧ next_level reject transitions pre = Val cs
             ∧ ((accepting accept c
                 ∧ bfs fuel start accept reject transitions input max_steps
                   = (path ← trace fuel c
                               (scan_parents reject transitions pre
                                  (parents m));
                      mret (true, Z.of_nat m,
                            gen m + Z.of_nat (length cs), path)))
                ∨ (¬ accepting accept c
                   ∧ expand reject transitions c = IndexError
                   ∧ bfs fuel start accept reject transitions input max_steps
                     = IndexError))).
Proof.
  intros Hpos. unfold bfs.
  pose proof (search_cases fuel (Z.to_nat max_steps) 0) as H.
  change (at_start 0) with (bfs_init start input) in H.
  destruct (for_each (explore fuel accept reject transitions)
              (seq 0 (Z.to_nat max_steps)) (bfs_init start input))
    as [s'|r].
  - destruct H as (-> & Hd & Hq & Hne).
    + intros j Hj. by replace j with 0%nat by lia.
    + intros j c Hj. lia.
    + left. exists (Z.to_nat max_steps). split; [lia|].
      split; [reflexivity|]. split; [exact Hd|]. split; [exact Hq|].
      intros j Hj. apply Hne. lia.
  - destruct H as (m & Hm & Hd & Hq & Hne & Hcases).
    + intros j Hj. by replace j with 0%nat by lia.
    + intros j c Hj. lia.
    + right. exists m. split; [lia|]. split; [exact Hd|]. split; [exact Hq|].
      split; [intros j Hj; apply Hne; lia|].
      destruct Hcases as [[Hf ->] | (pre & c & post & cs & Hf & Hp & Hn & Hr)].
      * by left.
      * right. exists pre, c, post, cs. split; [exact Hf|].
        split; [exact Hp|]. split; [exact Hn|].
        destruct Hr as [[Hc ->] | (Hc & He & ->)]; [by left | by right].
Qed.

End search_more.

Section parents_more.

Variables (start : string) (accept : list string) (reject : string).
Variable transitions : gmap (string * string) (list rule).
Variable input : string.

Local Abbreviation level_at := (level start reject transitions input).
Local Abbreviation front := (frontier_at start reject transitions input).
Local Abbreviation parents := (parents_upto start reject transitions input).
Local Abbreviation defined_upto m :=
  (∀ j : nat, (j ≤ m)%nat → level_at j = Val (front j)).
Local Abbreviation quiet_below m :=
  (∀ (j : nat) (c : config), (j < m)%nat → c ∈ front j → ¬ accepting accept c).

(** Every entry of the parent map was written for a child of its value. *)
Lemma scan_parents_sound (Q : config → config → Prop)
  (frontier : list config) (par : gmap config config) :
  (∀ c p, par !! c = Some p → Q p c) →
  (∀ t cs c, t ∈ frontier → expand reject transitions t = Val cs →
             c ∈ cs → Q t c) →
  ∀ c p, scan_parents reject transitions frontier par !! c = Some p → Q p c.
Proof.
  revert par. induction frontier as [|t frontier IH]; intros par Hpar Hnew.
  - exact Hpar.
  - simpl. destruct (expand reject transitions t) as [cs| |] eqn:E;
      [|exact Hpar..].
    apply IH.
    + intros c p Hc. destruct (decide (c ∈ cs)) as [Hin | Hout].
      * rewrite record_parents_child in Hc by exact Hin.
        injection Hc as <-. apply (Hnew t cs c); [by left | done..].
      * rewrite record_parents_other in Hc by exact Hout. by apply Hpar.
    + intros t' cs' c Ht'. apply Hnew. by right.
Qed.

Lemma scan_parents_mono (frontier : list config) (par : gmap config config)
  (c : config) :
  is_Some (par !! c) →
  is_Some (scan_parents reject transitions frontier par !! c).
Proof.
  revert par. induction frontier as [|t frontier IH]; intros par Hc;
    [exact Hc|].
  simpl. destruct (expand reject transitions t) as [cs| |]; [|exact Hc..].
  apply IH. destruct (decide (c ∈ cs)) as [Hin | Hout].
  - rewrite record_parents_child by exact Hin. by eexists.
  - by rewrite record_parents_other.
Qed.

Lemma scan_parents_children (frontier cs : list config)
  (par : gmap config config) (c : config) :
  next_level reject transitions frontier = Val cs → c ∈ cs →
  is_Some (scan_parents reject transitions frontier par !! c).
Proof.
  revert par cs. induction frontier as [|t frontier IH]; intros par cs.
  - simpl. intros H. injection H as <-. intros Hc. inversion Hc.
  - simpl. destruct (expand reject transitions t) as [cs1| |];
      try discriminate.
    destruct (next_level reject transitions frontier) as [cs2| |] eqn:E2;
      try discriminate.
    simpl. intros H. injection H as <-.
    intros [Hc | Hc]%elem_of_app.
    + apply scan_parents_mono. rewrite record_parents_child by exact Hc.
      by eexists.
    + by eapply IH.
Qed.

Lemma next_level_contains (frontier cs ps : list config) (p x : config) :
  next_level reject transitions frontier = Val cs →
  p ∈ frontier → expand reject transitions p = Val ps → x ∈ ps → x ∈ cs.
Proof.
  revert cs. induction frontier as [|t frontier IH]; intros cs H Hp Hps Hx.
  - inversion Hp.
  - simpl in H.
    destruct (expand reject transitions t) as [cs1| |] eqn:E1;
      try discriminate.
    destruct (next_level reject transitions frontier) as [cs2| |] eqn:E2;
      try discriminate.
    simpl in H. injection H as <-. apply elem_of_app.
    apply elem_of_cons in Hp as [-> | Hp].
    + left. rewrite E1 in Hps. by injection Hps as <-.
    + right. by eapply IH.
Qed.

(** The parent of an entry is a configuration of an expanded level. *)
Lemma parents_scan_sound (m : nat) (pre post : list config) :
  front m = pre ++ post →
  ∀ c p,
    scan_parents reject transitions pre (parents m) !! c = Some p →
    step reject transitions p c ∧ ∃ j : nat, (j ≤ m)%nat ∧ p ∈ front j.
Proof.
  revert pre post. induction m as [|m IH]; intros pre post Hfr.
  - apply scan_parents_sound.
    + intros c p Hc. simpl in Hc. by rewrite lookup_empty in Hc.
    + intros t cs c Ht E Hc. split; [by exists cs|].
      exists 0%nat. split; [lia|]. rewrite Hfr. apply elem_of_app. by left.
  - apply scan_parents_sound.
    + intros c p Hc. simpl in Hc.
      destruct (IH (front m) [] (eq_sym (app_nil_r _)) c p Hc)
        as (Hstep & j & Hj & Hp).
      split; [exact Hstep|]. exists j. split; [lia | exact Hp].
    + intros t cs c Ht E Hc. split; [by exists cs|].
      exists (S m). split; [lia|]. rewrite Hfr. apply elem_of_app. by left.
Qed.

(** Every configuration of levels 1 to [m] has an entry. *)
Lemma parents_keys (m j : nat) (c : config) :
  defined_upto m → (1 ≤ j ≤ m)%nat → c ∈ front j →
  is_Some (parents m !! c).
Proof.
  revert j c. induction m as [|m IH]; intros j c Hdef Hj Hc; [lia|].
  simpl. destruct (decide (j = S m)) as [-> | Hne].
  - destruct (level_defined_before start reject transitions input m
                (front (S m))) as [_ Hnext].
    { apply Hdef. lia. }
    by eapply scan_parents_children.
  - apply scan_parents_mono. apply (IH j); [|lia | exact Hc].
    intros i Hi. apply Hdef. lia.
Qed.

(** What [trace] returns from a configuration of level [m], with the
    parent map of the moment that configuration is scanned. *)
Lemma accepted_path (fuel m : nat) (pre post : list config) (c : config)
  (path : list config) :
  defined_upto m →
  front m = pre ++ c :: post →
  trace fuel c (scan_parents reject transitions pre (parents m)) = Val path →
  head path = Some ("", start, input)
  ∧ last path = Some c
  ∧ (∀ (i : nat) (p x : config),
       path !! i = Some p → path !! S i = Some x →
       step reject transitions p x)
  ∧ (∀ x, x ∈ path → ∃ j : nat, (j ≤ m)%nat ∧ x ∈ front j)
  ∧ NoDup path
  ∧ (∀ i : nat, (i ≤ m)%nat → (i < length path)%nat →
       ∃ x, path !! i = Some x ∧ x ∈ front i).
Proof.
  intros Hdef Hfr Htrace.
  set (par := scan_parents reject transitions pre (parents m)) in *.
  assert (Hsound : ∀ x p, par !! x = Some p →
            step reject transitions p x
            ∧ ∃ j : nat, (j ≤ m)%nat ∧ p ∈ front j).
  { apply (parents_scan_sound m pre (c :: post)). exact Hfr. }
  assert (Hkeys : ∀ (j : nat) x, (1 ≤ j ≤ m)%nat → x ∈ front j →
            is_Some (par !! x)).
  { intros j x Hj Hx. apply scan_parents_mono. by eapply parents_keys. }
  pose proof (trace_last _ _ _ _ Htrace) as Hlast.
  rewrite trace_ancestry in Htrace.
  destruct (ancestry fuel par c) as [l| |] eqn:E; try discriminate.
  injection Htrace as <-.
  destruct (ancestry_shape par fuel c l E)
    as (Hhead & (root & Hroot & Hnone) & Hlink & _).
  assert (Hin : ∀ (i : nat) x, l !! i = Some x →
            ∃ j : nat, (j ≤ m)%nat ∧ x ∈ front j).
  { induction i as [|i IHi]; intros x Hx.
    - rewrite <- head_lookup, Hhead in Hx. injection Hx as <-.
      exists m. split; [lia|]. rewrite Hfr. apply elem_of_app. right. by left.
    - destruct (lookup_lt_is_Some_2 l i) as [y Hy].
      { apply lookup_lt_Some in Hx. lia. }
      by destruct (Hsound y x (Hlink i y x Hy Hx)) as [_ ?]. }
  assert (Hsteps : ∀ (i : nat) (p x : config),
            reverse l !! i = Some p → reverse l !! S i = Some x →
            step reject transitions p x).
  { intros i p x Hp Hx.
    apply reverse_lookup_Some in Hp as [Hp Hi].
    apply reverse_lookup_Some in Hx as [Hx Hi'].
    apply (Hsound x p).
    apply (Hlink (length l - S (S i))%nat); [exact Hx|].
    replace (S (length l - S (S i))) with (length l - S i)%nat by lia.
    exact Hp. }
  assert (Hfirst : head (reverse l) = Some ("", start, input)).
  { rewrite head_reverse, Hroot. f_equal.
    apply last_Some in Hroot as [l0 ->].
    destruct (Hin (length l0) root) as (j & Hj & Hr).
    { by apply list_lookup_middle. }
    destruct j as [|j].
    - unfold frontier_at in Hr. simpl in Hr.
      by apply list_elem_of_singleton in Hr.
    - destruct (Hkeys (S j) root) as [p Hp]; [lia | exact Hr|].
      rewrite Hnone in Hp. discriminate. }
  split; [exact Hfirst|]. split; [exact Hlast|]. split; [exact Hsteps|].
  split.
  { intros x Hx. apply (proj1 (elem_of_reverse x l)) in Hx.
    apply list_elem_of_lookup in Hx as [i Hi]. exact (Hin i x Hi). }
  split; [rewrite reverse_Permutation; by eapply ancestry_nodup|].
  induction i as [|i IHi]; intros Hi Hlen.
  - exists ("", start, input). split; [by rewrite <- head_lookup|].
    unfold frontier_at. simpl. by left.
  - destruct IHi as (p & Hp & Hpi); [lia..|].
    destruct (lookup_lt_is_Some_2 (reverse l) (S i) Hlen) as [x Hx].
    exists x. split; [exact Hx|].
    destruct (Hsteps i p x Hp Hx) as (ps & Hps & Hxps).
    destruct (level_defined_before start reject transitions input i
                (front (S i))) as [_ Hnext].
    { apply Hdef. lia. }
    by eapply next_level_contains.
Qed.

End parents_more.

Section bfs_more.

Variables (start : string) (accept : list string) (reject : string).
Variable transitions : gmap (string * string) (list rule).
Variable input : string.

Local Abbreviation level_at := (level start reject transitions input).
Local Abbreviation front := (frontier_at start reject transitions input).
Local Abbreviation gen := (generated start reject transitions input).
Local Abbreviation run fuel max_steps :=
  (bfs fuel start accept reject transitions input max_steps).

Lemma bfs_no_steps (fuel : nat) (max_steps : Z) :
  max_steps ≤ 0 → run fuel max_steps = Val (false, max_steps, 0, []).
Proof.
  intros H. unfold bfs. by replace (Z.to_nat max_steps) with 0%nat by lia.
Qed.

Lemma next_level_all_expand (frontier cs : list config) (c : config) :
  next_level reject transitions frontier = Val cs → c ∈ frontier →
  ∃ ps, expand reject transitions c = Val ps.
Proof.
  revert cs. induction frontier as [|t frontier IH]; intros cs H Hc.
  - inversion Hc.
  - simpl in H.
    destruct (expand reject transitions t) as [cs1| |] eqn:E1;
      try discriminate.
    destruct (next_level reject transitions frontier) as [cs2| |] eqn:E2;
      try discriminate.
    apply elem_of_cons in Hc as [-> | Hc]; [by eexists | by eapply IH].
Qed.

(** X9: a path reported with an accepted result is a computation of the
    machine: it starts at the initial configuration, every configuration
    after the first is one of the successors generated from the one before
    it, it ends at an accepting configuration, no configuration occurs
    twice in it, and it holds at least [d + 1] configurations for the
    reported depth [d]. *)
Theorem bfs_path_is_computation (fuel : nat) (max_steps d tot : Z)
  (path : list config) :
  run fuel max_steps = Val (true, d, tot, path) →
  head path = Some ("", start, input)
  ∧ (∃ c, last path = Some c ∧ accepting accept c)
  ∧ (∀ (i : nat) (p x : config),
       path !! i = Some p → path !! S i = Some x →
       step reject transitions p x)
  ∧ NoDup path
  ∧ d + 1 ≤ Z.of_nat (length path).
Proof.
  intros H.
  destruct (decide (0 < max_steps)) as [Hpos | Hneg].
  2:{ rewrite bfs_no_steps in H by lia. discriminate. }
  destruct (bfs_cases start accept reject transitions input fuel max_steps
              Hpos)
    as [(n & _ & Hr & _) | (m & Hm & Hdef & Hq & _ & Hcases)].
  { rewrite Hr in H. discriminate. }
  destruct Hcases as [[_ Hr] | (pre & c & post & cs & Hf & _ & _ & Hr)].
  { rewrite Hr in H. discriminate. }
  destruct Hr as [[Hc Hr] | (_ & _ & Hr)].
  2:{ rewrite Hr in H. discriminate. }
  rewrite Hr in H.
  destruct (trace fuel c _) as [path'| |] eqn:Ht; try discriminate.
  simpl in H. injection H as <- <- <-.
  destruct (accepted_path start reject transitions input fuel m pre post c
              path' Hdef Hf Ht)
    as (Hhead & Hlast & Hsteps & _ & Hnodup & Hlev).
  split; [exact Hhead|]. split; [by exists c|]. split; [exact Hsteps|].
  split; [exact Hnodup|].
  destruct (decide (m < length path')%nat) as [Hlt | Hge]; [lia|].
  exfalso.
  assert (Hne : path' ≠ []) by (intros ->; discriminate).
  destruct path' as [|x0 rest]; [done|].
  destruct (Hlev (length rest)) as (x & Hx & Hxl); [simpl in Hge; lia|simpl; lia|].
  rewrite last_lookup in Hlast. simpl in Hlast. rewrite Hx in Hlast.
  injection Hlast as ->.
  apply (Hq (length rest) c); [simpl in Hge; lia | exact Hxl | exact Hc].
Qed.

(** X10: a result that is not accepted is sound.  For the reported depth
    [d], levels 0 to [d] were all built, none of the levels below [d] holds
    an accepting configuration, the path is empty, and when [d] is below
    the step bound the frontier of level [d] is empty. *)
Theorem bfs_rejects_sound (fuel : nat) (max_steps d tot : Z)
  (path : list config) :
  0 < max_steps →
  run fuel max_steps = Val (false, d, tot, path) →
  path = []
  ∧ ∃ m : nat,
      d = Z.of_nat m ∧ d ≤ max_steps
      ∧ (∀ j : nat, (j ≤ m)%nat → ∃ fr, level_at j = Val fr)
      ∧ (∀ (j : nat) (fr : list config) (c : config),
           (j < m)%nat → level_at j = Val fr → c ∈ fr →
           ¬ accepting accept c)
      ∧ (d < max_steps → level_at m = Val []).
Proof.
  intros Hpos H.
  destruct (bfs_cases start accept reject transitions input fuel max_steps
              Hpos)
    as [(n & Hn & Hr & Hdef & Hq & _) | (m & Hm & Hdef & Hq & _ & Hcases)].
  - rewrite Hr in H. injection H as <- <- <-. split; [reflexivity|].
    exists n. split; [exact Hn|]. split; [lia|].
    split; [intros j Hj; eexists; by apply Hdef|].
    split; [|lia].
    intros j fr c Hj Hfr Hc. apply (Hq j c Hj).
    by rewrite (front_defined start reject transitions input j fr Hfr).
  - destruct Hcases as [[Hf Hr] | (pre & c & post & cs & _ & _ & _ & Hr)].
    + rewrite Hr in H. injection H as <- <- <-. split; [reflexivity|].
      exists m. split; [reflexivity|]. split; [lia|].
      split; [intros j Hj; eexists; by apply Hdef|].
      split.
      * intros j fr c Hj Hfr Hc. apply (Hq j c Hj).
        by rewrite (front_defined start reject transitions input j fr Hfr).
      * intros _. rewrite <- Hf. apply Hdef. lia.
    + destruct Hr as [[_ Hr] | (_ & _ & Hr)]; rewrite Hr in H;
        [|discriminate].
      destruct (trace fuel c _); discriminate.
Qed.


Lemma move_writes (left right write_char direction : string) :
  write_char ≠ "" →
  ∃ new_left new_right,
    move left right write_char direction = Val (new_left, new_right).
Proof.
  intros Hw.
  destruct (move left right write_char direction) as [[nl nr]| |] eqn:E.
  - by exists nl, nr.
  - apply move_raises_cases in E as (_ & -> & _). done.
  - exfalso. unfold move in E.
    destruct (String.eqb direction "R").
    + destruct (1 <? Py.len (write right write_char));
        destruct (Py.index0 (write right write_char)) eqn:E0;
        try discriminate; destruct (write right write_char); discriminate.
    + destruct (Py.truthy left) eqn:Hl; [|discriminate].
      destruct (negb (Py.truthy (write right write_char))
                || String.eqb (write right write_char) "_"); [discriminate|].
      apply truthy_true in Hl. destruct (last_split _ Hl) as (c & Hc & _).
      rewrite Hc in E. discriminate.
Qed.

Lemma successors_write (t : config) (moves : list rule) :
  (∀ r, r ∈ moves → r.1.2 ≠ "") → ∃ cs, successors t moves = Val cs.
Proof.
  induction moves as [|[[ns w] d] moves IH]; intros Hw; [by eexists|].
  destruct IH as [cs Hcs]; [intros r Hr; apply Hw; by right|].
  destruct (move_writes t.1.1 t.2 w d) as (nl & nr & Hm).
  { apply (Hw (ns, w, d)). by left. }
  simpl. unfold successor. rewrite Hm. simpl. rewrite Hcs. by eexists.
Qed.

Lemma expand_writes (t : config) :
  writes_symbols transitions → ∃ cs, expand reject transitions t = Val cs.
Proof.
  intros Hw. unfold expand.
  destruct (String.eqb t.1.2 reject); [by eexists|].
  destruct (transitions !! (t.1.2, head_symbol t.2)) as [moves|] eqn:E;
    [|by eexists].
  change (default [] (Some moves)) with moves.
  destruct moves as [|r moves]; [by eexists|].
  apply successors_write. intros r' Hr'. by eapply Hw.
Qed.

Lemma bfs_no_index_error (fuel : nat) (max_steps : Z) :
  writes_symbols transitions → run fuel max_steps ≠ IndexError.
Proof.
  intros Hw H.
  destruct (decide (0 < max_steps)) as [Hpos | Hneg].
  2:{ rewrite bfs_no_steps in H by lia. discriminate. }
  destruct (bfs_cases start accept reject transitions input fuel max_steps
              Hpos)
    as [(n & _ & Hr & _) | (m & _ & _ & _ & _ & Hcases)].
  { rewrite Hr in H. discriminate. }
  destruct Hcases as [[_ Hr] | (pre & c & post & cs & _ & _ & _ & Hr)].
  { rewrite Hr in H. discriminate. }
  destruct Hr as [[_ Hr] | (_ & He & _)].
  - rewrite Hr in H. destruct (trace fuel c _) as [p| |] eqn:Ht;
      try discriminate.
    unfold trace in Ht.
    destruct (trace_loop fuel c _ [c]) as [l| |] eqn:El; try discriminate.
    clear -El. revert El. generalize [c]. generalize c.
    induction fuel as [|f IH]; intros c0 acc; simpl;
      destruct (_ !! c0); try discriminate. apply IH.
  - destruct (expand_writes c Hw) as [ps Hps]. rewrite Hps in He.
    discriminate.
Qed.

(** X12: when every rule of the table writes a non-empty string, [bfs]
    never raises [IndexError]: no call of [move] fails and no index into
    the queue or a tape is out of range. *)
Theorem bfs_never_raises (fuel : nat) (max_steps : Z) :
  writes_symbols transitions → run fuel max_steps ≠ IndexError.
Proof. apply bfs_no_index_error. Qed.

(** The search returns at the first level whose frontier is empty. *)
Lemma bfs_exhausts_at (fuel : nat) (max_steps : Z) (m : nat) :
  Z.of_nat m < max_steps →
  (∀ j : nat, (j ≤ m)%nat → ∃ fr, level_at j = Val fr) →
  (∀ (j : nat) (c : config), (j < m)%nat → c ∈ front j →
     ¬ accepting accept c) →
  (∀ j : nat, (j < m)%nat → front j ≠ []) →
  front m = [] →
  run fuel max_steps = Val (false, Z.of_nat m, gen m, []).
Proof.
  intros Hm Hdef Hq Hne Hempty.
  destruct (bfs_cases start accept reject transitions input fuel max_steps)
    as [(n & Hn & _ & _ & _ & Hne') | (m' & Hm' & Hdef' & _ & Hne' & Hcases)];
    [lia | |].
  { exfalso. apply (Hne' m); [lia | exact Hempty]. }
  destruct (Nat.lt_trichotomy m' m) as [Hlt | [-> | Hgt]].
  - exfalso.
    destruct Hcases as [[Hf _] | (pre & c & post & cs & Hf & _ & _ & Hr)].
    { by apply (Hne m'). }
    assert (Hc : c ∈ front m').
    { rewrite Hf. apply elem_of_app. right. by left. }
    destruct Hr as [[Hacc _] | (_ & He & _)].
    + by apply (Hq m' c).
    + destruct (Hdef (S m')) as [fr Hfr]; [lia|].
      apply level_defined_before in Hfr as [_ Hnext].
      destruct (next_level_all_expand _ _ c Hnext Hc) as [ps Hps].
      rewrite Hps in He. discriminate.
  - destruct Hcases as [[_ Hr] | (pre & c & post & cs & Hf & _)];
      [exact Hr|].
    rewrite Hempty in Hf. by destruct pre.
  - exfalso. apply (Hne' m); [lia | exact Hempty].
Qed.

(** X13: when the frontier of level [m] is the first empty one, no level
    below [m] holds an accepting configuration and [m] is below the step
    bound, [bfs] returns, whatever the fuel, the not-accepted result of
    depth [m] whose counter is the number of configurations of levels 1 to
    [m]. *)
Theorem bfs_exhausts (fuel : nat) (max_steps : Z) (m : nat) :
  Z.of_nat m < max_steps →
  (∀ j : nat, (j ≤ m)%nat → ∃ fr, level_at j = Val fr) →
  (∀ (j : nat) (c : config), (j < m)%nat → c ∈ front j →
     ¬ accepting accept c) →
  (∀ j : nat, (j < m)%nat → front j ≠ []) →
  front m = [] →
  run fuel max_steps = Val (false, Z.of_nat m, gen m, []).
Proof. apply bfs_exhausts_at. Qed.

(** X14: when levels 0 to [max_steps] can all be built, none of the levels
    below [max_steps] is empty or holds an accepting configuration, [bfs]
    returns, whatever the fuel, the not-accepted result of depth
    [max_steps]. *)
Theorem bfs_reaches_bound (fuel : nat) (max_steps : Z) :
  0 < max_steps →
  (∀ j : nat, (j ≤ Z.to_nat max_steps)%nat → ∃ fr, level_at j = Val fr) →
  (∀ (j : nat) (c : config), (j < Z.to_nat max_steps)%nat → c ∈ front j →
     ¬ accepting accept c) →
  (∀ j : nat, (j < Z.to_nat max_steps)%nat → front j ≠ []) →
  run fuel max_steps
  = Val (false, max_steps, gen (Z.to_nat max_steps), []).
Proof.
  intros Hpos Hdef Hq Hne.
  destruct (bfs_cases start accept reject transitions input fuel max_steps
              Hpos)
    as [(n & Hn & Hr & _) | (m' & Hm' & _ & _ & _ & Hcases)].
  { rewrite Hr. by replace (Z.to_nat max_steps) with n by lia. }
  exfalso.
  destruct Hcases as [[Hf _] | (pre & c & post & cs & Hf & _ & _ & Hr)].
  { apply (Hne m'); [lia | exact Hf]. }
  assert (Hc : c ∈ front m').
  { rewrite Hf. apply elem_of_app. right. by left. }
  destruct Hr as [[Hacc _] | (_ & He & _)].
  - apply (Hq m' c); [lia | done..].
  - destruct (Hdef (S m')) as [fr Hfr]; [lia|].
    apply level_defined_before in Hfr as [_ Hnext].
    destruct (next_level_all_expand _ _ c Hnext Hc) as [ps Hps].
    rewrite Hps in He. discriminate.
Qed.

Lemma for_each_app {A S R : Type} (body : S → A → flow S R)
  (xs ys : list A) (s : S) :
  for_each body (xs ++ ys) s
  = match for_each body xs s with
    | Continue s' => for_each body ys s'
    | Return r => Return r
    end.
Proof.
  revert s. induction xs as [|x xs IH]; intros s; [reflexivity|].
  simpl. destruct (body s x); [apply IH | reflexivity].
Qed.

(** X15: a result found below the step bound (accepted, or rejected at an
    empty frontier) does not depend on the bound: any larger bound gives
    the same result. *)
Theorem bfs_bound_monotone (fuel : nat) (max_steps max_steps' d tot : Z)
  (b : bool) (path : list config) :
  run fuel max_steps = Val (b, d, tot, path) →
  d < max_steps → max_steps ≤ max_steps' →
  run fuel max_steps' = Val (b, d, tot, path).
Proof.
  unfold bfs. intros H Hd Hle.
  replace (Z.to_nat max_steps')
    with (Z.to_nat max_steps + (Z.to_nat max_steps' - Z.to_nat max_steps))%nat
    by lia.
  rewrite seq_app, for_each_app.
  destruct (for_each (explore fuel accept reject transitions)
              (seq 0 (Z.to_nat max_steps)) (bfs_init start input))
    as [s'|r].
  - injection H as <- <- <- <-. lia.
  - exact H.
Qed.

Lemma expand_right_nonempty (t c : config) (cs : list config) :
  t.2 ≠ "" → expand reject transitions t = Val cs → c ∈ cs → c.2 ≠ "".
Proof.
  intros Ht. unfold expand.
  destruct (String.eqb t.1.2 reject).
  { intros H. injection H as <-. intros Hc. inversion Hc. }
  destruct (default [] (transitions !! (t.1.2, head_symbol t.2)))
    as [|r moves].
  { intros H. injection H as <-. intros Hc.
    apply list_elem_of_singleton in Hc as ->. exact Ht. }
  generalize (r :: moves). clear r moves. intros moves. revert cs.
  induction moves as [|[[ns w] d] moves IH]; intros cs H Hc.
  - injection H as <-. inversion Hc.
  - simpl in H. unfold successor in H.
    destruct (move t.1.1 t.2 w d) as [[nl nr]| |] eqn:Em; try discriminate.
    simpl in H.
    destruct (successors t moves) as [cs'| |] eqn:Es; try discriminate.
    injection H as <-. apply elem_of_cons in Hc as [-> | Hc].
    + simpl. by eapply move_returns_nonempty.
    + by eapply IH.
Qed.

Lemma next_level_right_nonempty (frontier cs : list config) (c : config) :
  (∀ t, t ∈ frontier → t.2 ≠ "") →
  next_level reject transitions frontier = Val cs → c ∈ cs → c.2 ≠ "".
Proof.
  revert cs. induction frontier as [|t frontier IH]; intros cs Hfr H Hc.
  - injection H as <-. inversion Hc.
  - simpl in H.
    destruct (expand reject transitions t) as [cs1| |] eqn:E1;
      try discriminate.
    destruct (next_level reject transitions frontier) as [cs2| |] eqn:E2;
      try discriminate.
    injection H as <-. apply elem_of_app in Hc as [Hc | Hc].
    + apply (expand_right_nonempty t c cs1); [apply Hfr; by left | done..].
    + apply (IH cs2); [|done..]. intros t' Ht'. apply Hfr. by right.
Qed.

Lemma level_right_nonempty (j : nat) (fr : list config) (c : config) :
  input ≠ "" → level_at j = Val fr → c ∈ fr → c.2 ≠ "".
Proof.
  intros Hin. revert fr c. induction j as [|j IH]; intros fr c H Hc.
  - injection H as <-. by apply list_elem_of_singleton in Hc as ->.
  - apply level_defined_before in H as [Hj Hnext].
    apply (next_level_right_nonempty (front j) fr c); [|done..].
    intros t Ht. by apply (IH (front j)).
Qed.

(** X16: the tape invariant.  For a non-empty input, [right] is non-empty
    in every configuration of every level, and so in every configuration
    of a reported path: the head always has a cell under it, and the
    guards for an empty [right] only serve the empty input. *)
Theorem right_never_empty (fuel : nat) (max_steps d tot : Z)
  (path : list config) :
  input ≠ "" →
  (∀ (j : nat) (fr : list config) (c : config),
     level_at j = Val fr → c ∈ fr → c.2 ≠ "")
  ∧ (run fuel max_steps = Val (true, d, tot, path) →
     ∀ c, c ∈ path → c.2 ≠ "").
Proof.
  intros Hin. split; [intros j fr c; by apply level_right_nonempty|].
  intros H c Hc.
  destruct (decide (0 < max_steps)) as [Hpos | Hneg].
  2:{ rewrite bfs_no_steps in H by lia. discriminate. }
  destruct (bfs_cases start accept reject transitions input fuel max_steps
              Hpos)
    as [(n & _ & Hr & _) | (m & Hm & Hdef & Hq & _ & Hcases)].
  { rewrite Hr in H. discriminate. }
  destruct Hcases as [[_ Hr] | (pre & c0 & post & cs & Hf & _ & _ & Hr)].
  { rewrite Hr in H. discriminate. }
  destruct Hr as [[_ Hr] | (_ & _ & Hr)].
  2:{ rewrite Hr in H. discriminate. }
  rewrite Hr in H.
  destruct (trace fuel c0 _) as [path'| |] eqn:Ht; try discriminate.
  simpl in H. injection H as <- <- <-.
  destruct (accepted_path start reject transitions input fuel m pre post c0
              path' Hdef Hf Ht)
    as (_ & _ & _ & Hlev & _).
  destruct (Hlev c Hc) as (j & Hj & Hcj).
  apply (level_right_nonempty j (front j) c Hin); [|exact Hcj].
  apply Hdef. exact Hj.
Qed.

(** X17: a start configuration without applicable rule.  When the start
    state is neither accepting nor the reject state, the reject state is
    not accepting and the table has no entry for the start state and the
    first input symbol, the only successor is the reject configuration,
    which is pruned at level 1: with a bound above 2, [bfs] returns the
    not-accepted result of depth 2 with one transition. *)
Theorem bfs_no_rule_at_start (fuel : nat) (max_steps : Z) :
  start ∉ accept → reject ∉ accept → start ≠ reject →
  transitions !! (start, head_symbol input) = None →
  2 < max_steps →
  run fuel max_steps = Val (false, 2, 1, []).
Proof.
  intros Hs Hr Hsr Hnone Hmax.
  assert (H1 : level_at 1 = Val [("", reject, input)]).
  { simpl. unfold expand. simpl.
    apply String.eqb_neq in Hsr. rewrite Hsr, Hnone. reflexivity. }
  assert (H2 : level_at 2 = Val []).
  { change (level_at 2)
      with (frontier ← level_at 1; next_level reject transitions frontier).
    rewrite H1. simpl. unfold expand. simpl.
    by rewrite String.eqb_refl. }
  assert (F0 : front 0 = [("", start, input)]) by reflexivity.
  assert (F1 : front 1 = [("", reject, input)])
    by (by apply front_defined).
  assert (F2 : front 2 = []) by (by apply front_defined).
  pose proof (bfs_exhausts_at fuel max_steps 2) as H.
  replace (gen 2) with 1 in H.
  2:{ simpl. rewrite F1. change (frontier_at start reject transitions input 2)
        with (front 2). rewrite F2. reflexivity. }
  apply H.
  - lia.
  - intros j Hj.
    destruct j as [|[|[|j]]]; [by eexists.. | lia].
  - intros j c Hj Hc.
    destruct j as [|[|j]]; [| |lia].
    + rewrite F0 in Hc. apply list_elem_of_singleton in Hc as ->. exact Hs.
    + rewrite F1 in Hc. apply list_elem_of_singleton in Hc as ->. exact Hr.
  - intros j Hj. destruct j as [|[|j]]; [by rewrite F0 | by rewrite F1 | lia].
  - exact F2.
Qed.

End bfs_more.

(** ** Runs of the sample machines, continued *)

Lemma bfs_path_is_computation_witness :
  head [("", "even", "11"); ("1", "odd", "1"); ("11", "even", "_");
        ("11_", "yes", "_")] = Some ("", "even", "11")
  ∧ (∃ c, last [("", "even", "11"); ("1", "odd", "1"); ("11", "even", "_");
                ("11_", "yes", "_")] = Some c
          ∧ accepting ["yes"] c)
  ∧ (∀ (i : nat) (p x : config),
       [("", "even", "11"); ("1", "odd", "1"); ("11", "even", "_");
        ("11_", "yes", "_")] !! i = Some p →
       [("", "even", "11"); ("1", "odd", "1"); ("11", "even", "_");
        ("11_", "yes", "_")] !! S i = Some x →
       step "no" Samples.even_ones p x)
  ∧ NoDup [("", "even", "11"); ("1", "odd", "1"); ("11", "even", "_");
           ("11_", "yes", "_")]
  ∧ 3 + 1 ≤ Z.of_nat (length [("", "even", "11"); ("1", "odd", "1");
                               ("11", "even", "_"); ("11_", "yes", "_")]).
Proof.
  apply (bfs_path_is_computation "even" ["yes"] "no" Samples.even_ones "11"
           10 10 3 3).
  vm_compute. reflexivity.
Defined.

Lemma bfs_rejects_sound_witness :
  ([] : list config) = []
  ∧ ∃ m : nat,
      2 = Z.of_nat m ∧ 2 ≤ 2
      ∧ (∀ j : nat, (j ≤ m)%nat →
           ∃ fr, level "q0" "qr" Samples.pingpong "ab" j = Val fr)
      ∧ (∀ (j : nat) (fr : list config) (c : config),
           (j < m)%nat → level "q0" "qr" Samples.pingpong "ab" j = Val fr →
           c ∈ fr → ¬ accepting ["qa"] c)
      ∧ (2 < 2 → level "q0" "qr" Samples.pingpong "ab" m = Val []).
Proof.
  apply (bfs_rejects_sound "q0" ["qa"] "qr" Samples.pingpong "ab" 0 2 2 3 []).
  - lia.
  - vm_compute. reflexivity.
Defined.


Lemma detour_writes_symbols : writes_symbols Samples.detour.
Proof.
  intros k moves r Hk Hr. unfold Samples.detour in Hk.
  apply lookup_insert_Some in Hk as [[_ <-] | [_ Hk]].
  - apply elem_of_cons in Hr as [-> | Hr]; [discriminate|].
    apply list_elem_of_singleton in Hr as ->. discriminate.
  - apply lookup_singleton_Some in Hk as [_ <-].
    apply list_elem_of_singleton in Hr as ->. discriminate.
Defined.

Lemma bfs_never_raises_witness :
  bfs 5 "q0" ["qa"] "qr" Samples.detour "a" 2 ≠ IndexError.
Proof.
  apply (bfs_never_raises "q0" ["qa"] "qr" Samples.detour "a" 5 2).
  exact detour_writes_symbols.
Defined.

Lemma bfs_no_rule_at_start_witness :
  bfs 0 "q0" ["qa"] "qr" ∅ "a" 3 = Val (false, 2, 1, []).
Proof.
  apply (bfs_no_rule_at_start "q0" ["qa"] "qr" ∅ "a" 0 3).
  - intros H. apply list_elem_of_singleton in H. discriminate H.
  - intros H. apply list_elem_of_singleton in H. discriminate H.
  - discriminate.
  - reflexivity.
  - lia.
Defined.

Lemma bfs_exhausts_witness :
  bfs 0 "q0" ["qa"] "qr" ∅ "a" 3
  = Val (false, Z.of_nat 2, generated "q0" "qr" ∅ "a" 2, []).
Proof.
  apply (bfs_exhausts "q0" ["qa"] "qr" ∅ "a" 0 3 2).
  - lia.
  - intros j Hj. destruct j as [|[|[|j]]]; [by eexists.. | lia].
  - intros j c Hj Hc. destruct j as [|[|j]]; [| |lia].
    + apply list_elem_of_singleton in Hc as ->.
      intros H. apply list_elem_of_singleton in H. discriminate H.
    + apply list_elem_of_singleton in Hc as ->.
      intros H. apply list_elem_of_singleton in H. discriminate H.
  - intros j Hj. destruct j as [|[|j]]; [discriminate.. | lia].
  - reflexivity.
Defined.

Lemma bfs_reaches_bound_witness :
  bfs 0 "q0" ["qa"] "qr" Samples.pingpong "ab" 2
  = Val (false, 2, generated "q0" "qr" Samples.pingpong "ab" (Z.to_nat 2), []).
Proof.
  apply (bfs_reaches_bound "q0" ["qa"] "qr" Samples.pingpong "ab" 0 2).
  - lia.
  - intros j Hj. change (Z.to_nat 2) with 2%nat in Hj.
    destruct j as [|[|[|j]]]; [eexists; vm_compute; reflexivity.. | lia].
  - intros j c Hj Hc. change (Z.to_nat 2) with 2%nat in Hj.
    destruct j as [|[|j]]; [| |lia].
    + apply list_elem_of_singleton in Hc as ->.
      intros H. apply list_elem_of_singleton in H. discriminate H.
    + assert (E : frontier_at "q0" "qr" Samples.pingpong "ab" 1
                  = [("a", "q1", "b")]) by (vm_compute; reflexivity).
      rewrite E in Hc. apply list_elem_of_singleton in Hc as ->.
      intros H. apply list_elem_of_singleton in H. discriminate H.
  - intros j Hj. change (Z.to_nat 2) with 2%nat in Hj.
    destruct j as [|[|j]]; [| |lia].
    + discriminate.
    + assert (E : frontier_at "q0" "qr" Samples.pingpong "ab" 1
                  = [("a", "q1", "b")]) by (vm_compute; reflexivity).
      rewrite E. discriminate.
Defined.

Lemma bfs_bound_monotone_witness :
  bfs 10 "even" ["yes"] "no" Samples.even_ones "11" 20
  = Val (true, 3, 3,
         [("", "even", "11"); ("1", "odd", "1"); ("11", "even", "_");
          ("11_", "yes", "_")]).
Proof.
  apply (bfs_bound_monotone "even" ["yes"] "no" Samples.even_ones "11"
           10 10 20).
  - vm_compute. reflexivity.
  - lia.
  - lia.
Defined.

Lemma right_never_empty_witness :
  Forall (λ c : config, c.2 ≠ "")
    [("", "even", "11"); ("1", "odd", "1"); ("11", "even", "_");
     ("11_", "yes", "_")].
Proof.
  destruct (right_never_empty "even" ["yes"] "no" Samples.even_ones "11"
              10 10 3 3
              [("", "even", "11"); ("1", "odd", "1"); ("11", "even", "_");
               ("11_", "yes", "_")]) as [_ H].
  - discriminate.
  - apply Forall_forall. apply H. vm_compute. reflexivity.
Defined.


(** * Loading a machine *)

Example read_sample :
  read_file sample_lines
  = Loaded ("detour", "q0", ["qa"], "qr", Samples.detour).
Proof. vm_compute. reflexivity. Qed.

Example strip_examples :
  PyStr.strip "  q0 " = "q0"
  ∧ PyStr.strip (String "009" (String "010" "")) = ""
  ∧ PyStr.strip "a b" = "a b".
Proof. repeat split. Qed.

Example split_examples :
  PyStr.split "," "a,,b" = ["a"; ""; "b"]
  ∧ PyStr.split "," "" = [""]
  ∧ PyStr.split "," "q0" = ["q0"]
  ∧ PyStr.split "," "a," = ["a"; ""].
Proof. repeat split. Qed.

Section loading.

Implicit Types (t : gmap (string * string) (list rule)) (line : string).

Lemma split_nonempty (sep : ascii) (s : string) : PyStr.split sep s ≠ [].
Proof.
  destruct s as [|c r]; simpl; [discriminate|].
  destruct (Ascii.eqb c sep); [discriminate|].
  destruct (PyStr.split sep r); discriminate.
Qed.

(** A line that parses as a rule is not blank. *)
Lemma parse_rule_not_blank line x :
  parse_rule line = Some x → Py.truthy (PyStr.strip line) = true.
Proof.
  unfold parse_rule. destruct (PyStr.strip line); [discriminate | done].
Qed.

(** One iteration of the loop over the rule lines. *)
Lemma add_rule_cases t line :
  add_rule t line
  = match parse_rule line with
    | Some (curr, r, x) =>
        Continue (<[(curr, r) := default [] (t !! (curr, r)) ++ [x]]> t)
    | None =>
        if Py.truthy (PyStr.strip line) then Return LoadValueError
        else Continue t
    end.
Proof.
  unfold add_rule. destruct (parse_rule line) as [[[curr r] x]|] eqn:E.
  - rewrite (parse_rule_not_blank _ _ E). unfold parse_rule in E.
    destruct (PyStr.split "," (PyStr.strip line))
      as [|f1 [|f2 [|f3 [|f4 [|f5 [|f6 fs]]]]]]; try discriminate.
    by injection E as <- <- <-.
  - destruct (Py.truthy (PyStr.strip line)); [|reflexivity].
    unfold parse_rule in E.
    destruct (PyStr.split "," (PyStr.strip line))
      as [|f1 [|f2 [|f3 [|f4 [|f5 [|f6 fs]]]]]]; try reflexivity.
    discriminate.
Qed.

Lemma rules_for_cons k line ls :
  rules_for k (line :: ls)
  = match rule_for k line with
    | Some x => x :: rules_for k ls
    | None => rules_for k ls
    end.
Proof. unfold rules_for. simpl. by destruct (rule_for k line). Qed.

(** The table the loop builds: under each key, the rules of the lines
    read, after the rules that were there. *)
Lemma load_rules_continue (ls : list string) t t' :
  for_each add_rule ls t = Continue t' →
  ∀ k, t' !! k
       = match default [] (t !! k) ++ rules_for k ls with
         | [] => t !! k
         | rs => Some rs
         end.
Proof.
  revert t. induction ls as [|line ls IH]; intros t H k.
  - injection H as <-. unfold rules_for. simpl. rewrite app_nil_r.
    destruct (t !! k) as [[|x rs]|]; reflexivity.
  - rewrite for_each_cons, add_rule_cases in H.
    rewrite rules_for_cons. unfold rule_for.
    destruct (parse_rule line) as [[[curr r] x]|] eqn:E.
    + rewrite (IH _ H k). destruct (decide ((curr, r) = k)) as [<- | Hne].
      * rewrite lookup_insert_eq. simpl. rewrite <- app_assoc. simpl.
        destruct (default [] (t !! (curr, r)) ++ x :: rules_for (curr, r) ls)
          eqn:Ec; [|reflexivity].
        by destruct (default [] (t !! (curr, r))).
      * by rewrite lookup_insert_ne.
    + destruct (Py.truthy (PyStr.strip line)); [discriminate|].
      by apply IH.
Qed.

(** The loop raises exactly at a line that is not blank and has not five
    fields. *)
Lemma load_rules_return (ls : list string) t (e : load_result machine) :
  for_each add_rule ls t = Return e →
  e = LoadValueError
  ∧ ∃ line, line ∈ ls ∧ PyStr.strip line ≠ "" ∧ parse_rule line = None.
Proof.
  revert t. induction ls as [|line ls IH]; intros t H; [discriminate|].
  rewrite for_each_cons, add_rule_cases in H.
  destruct (parse_rule line) as [[[curr r] x]|] eqn:E.
  - destruct (IH _ H) as (-> & l & Hl & Hrest). split; [done|].
    exists l. split; [by right | done].
  - destruct (Py.truthy (PyStr.strip line)) eqn:Ht.
    + injection H as <-. split; [done|]. exists line.
      split; [by left|]. split; [by apply truthy_true | done].
    + destruct (IH _ H) as (-> & l & Hl & Hrest). split; [done|].
      exists l. split; [by right | done].
Qed.

Lemma load_rules_ok (ls : list string) t :
  (∀ line, line ∈ ls → PyStr.strip line = "" ∨ is_Some (parse_rule line)) →
  ∃ t', for_each add_rule ls t = Continue t'.
Proof.
  revert t. induction ls as [|line ls IH]; intros t Hall; [by eexists|].
  rewrite for_each_cons, add_rule_cases.
  destruct (Hall line) as [Hb | [x Hx]]; [by left | |].
  - destruct (parse_rule line) as [[[curr r] x]|] eqn:E.
    + apply parse_rule_not_blank in E. by rewrite Hb in E.
    + rewrite Hb. simpl. apply IH. intros l Hl. apply Hall. by right.
  - rewrite Hx. destruct x as [[curr r] x]. apply IH.
    intros l Hl. apply Hall. by right.
Qed.

(** The header lines are there when the list has seven elements. *)
Lemma read_file_long (l0 l1 l2 l3 l4 l5 l6 : string) (rest : list string) :
  read_file (l0 :: l1 :: l2 :: l3 :: l4 :: l5 :: l6 :: rest)
  = match for_each add_rule rest ∅ with
    | Continue transitions =>
        Loaded (PyStr.strip l0, PyStr.strip l4,
                PyStr.split "," (PyStr.strip l5), PyStr.strip l6,
                transitions)
    | Return e => e
    end.
Proof. reflexivity. Qed.

Lemma read_file_short (lines : list string) :
  (length lines < 7)%nat → read_file lines = LoadIndexError.
Proof.
  intros H.
  destruct lines as [|l0 [|l1 [|l2 [|l3 [|l4 [|l5 [|l6 rest]]]]]]];
    try reflexivity.
  simpl in H. lia.
Qed.

Lemma long_lines (lines : list string) :
  (7 ≤ length lines)%nat →
  ∃ l0 l1 l2 l3 l4 l5 l6 rest,
    lines = l0 :: l1 :: l2 :: l3 :: l4 :: l5 :: l6 :: rest.
Proof.
  intros H.
  destruct lines as [|l0 [|l1 [|l2 [|l3 [|l4 [|l5 [|l6 rest]]]]]]];
    simpl in H; try lia.
  by exists l0, l1, l2, l3, l4, l5, l6, rest.
Qed.

(** X18: [read_file] raises [IndexError] exactly when the file has fewer
    than seven lines, whatever the lines hold. *)
Theorem read_file_index_error (lines : list string) :
  read_file lines = LoadIndexError ↔ (length lines < 7)%nat.
Proof.
  split; [|apply read_file_short].
  intros H. destruct (decide (length lines < 7)%nat) as [|Hge]; [done|].
  destruct (long_lines lines) as (l0 & l1 & l2 & l3 & l4 & l5 & l6 & rest & ->);
    [lia|].
  rewrite read_file_long in H.
  destruct (for_each add_rule rest ∅) as [t|e] eqn:E; [discriminate|].
  apply load_rules_return in E as [-> _]. discriminate.
Qed.

(** X19: with seven lines or more, [read_file] raises [ValueError] exactly
    when one of the lines after the seventh is not blank and does not
    split at commas into five fields. *)
Theorem read_file_value_error (lines : list string) :
  (7 ≤ length lines)%nat →
  read_file lines = LoadValueError
  ↔ ∃ line, line ∈ drop 7 lines
            ∧ PyStr.strip line ≠ ""
            ∧ length (PyStr.split "," (PyStr.strip line)) ≠ 5%nat.
Proof.
  intros Hlen.
  destruct (long_lines lines Hlen)
    as (l0 & l1 & l2 & l3 & l4 & l5 & l6 & rest & ->).
  rewrite read_file_long. simpl drop.
  assert (Hparse : ∀ line,
            parse_rule line = None
            ↔ length (PyStr.split "," (PyStr.strip line)) ≠ 5%nat).
  { intros line. unfold parse_rule.
    destruct (PyStr.split "," (PyStr.strip line))
      as [|f1 [|f2 [|f3 [|f4 [|f5 [|f6 fs]]]]]]; simpl;
      split; (done || discriminate || lia || intros _; lia). }
  split.
  - destruct (for_each add_rule rest ∅) as [t|e] eqn:E; [discriminate|].
    intros _. apply load_rules_return in E as (_ & line & Hl & Hs & Hp).
    exists line. split; [done|]. split; [done|]. by apply Hparse.
  - intros (line & Hl & Hs & Hp).
    destruct (for_each add_rule rest ∅) as [t|e] eqn:E.
    + exfalso. clear -E Hl Hs Hp Hparse. revert E. generalize (∅ : gmap (string * string) (list rule)).
      induction rest as [|l rest IH]; intros t0 E; [inversion Hl|].
      rewrite for_each_cons, add_rule_cases in E.
      apply elem_of_cons in Hl as [<- | Hl].
      * apply Hparse in Hp. rewrite Hp in E.
        apply truthy_true in Hs. rewrite Hs in E. discriminate.
      * destruct (parse_rule l) as [[[curr r] x]|]; [by eapply IH|].
        destruct (Py.truthy (PyStr.strip l)); [discriminate | by eapply IH].
    + by apply load_rules_return in E as [-> _].
Qed.

(** The result of a successful load. *)
Lemma read_file_loaded (lines : list string) (name start reject : string)
  (accept : list string) t :
  read_file lines = Loaded (name, start, accept, reject, t) →
  ∃ l0 l1 l2 l3 l4 l5 l6 rest,
    lines = l0 :: l1 :: l2 :: l3 :: l4 :: l5 :: l6 :: rest
    ∧ name = PyStr.strip l0 ∧ start = PyStr.strip l4
    ∧ accept = PyStr.split "," (PyStr.strip l5)
    ∧ reject = PyStr.strip l6
    ∧ for_each add_rule rest ∅ = Continue t.
Proof.
  intros H.
  destruct (decide (length lines < 7)%nat) as [Hlt | Hge].
  { rewrite read_file_short in H by done. discriminate. }
  destruct (long_lines lines) as (l0 & l1 & l2 & l3 & l4 & l5 & l6 & rest & ->);
    [lia|].
  rewrite read_file_long in H.
  destruct (for_each add_rule rest ∅) as [t'|e] eqn:E.
  - injection H as <- <- <- <- <-.
    by exists l0, l1, l2, l3, l4, l5, l6, rest.
  - apply load_rules_return in E as [-> _]. discriminate.
Qed.

(** X20: what a successful load returns.  The name, the start state and
    the reject state are lines 1, 5 and 7 without the surrounding white
    space; the accept list is line 6, stripped and split at commas; and
    the table maps each key to the rules that the lines after the seventh
    give for it, in the order of the lines, and has no entry for a key
    without rule line. *)
Theorem read_file_table (lines : list string) (name start reject : string)
  (accept : list string) t :
  read_file lines = Loaded (name, start, accept, reject, t) →
  ∃ l0 l1 l2 l3 l4 l5 l6 rest,
    lines = l0 :: l1 :: l2 :: l3 :: l4 :: l5 :: l6 :: rest
    ∧ name = PyStr.strip l0 ∧ start = PyStr.strip l4
    ∧ accept = PyStr.split "," (PyStr.strip l5)
    ∧ reject = PyStr.strip l6
    ∧ ∀ k, t !! k = match rules_for k rest with
                    | [] => None
                    | rs => Some rs
                    end.
Proof.
  intros H. apply read_file_loaded in H
    as (l0 & l1 & l2 & l3 & l4 & l5 & l6 & rest & -> & -> & -> & -> & -> & E).
  exists l0, l1, l2, l3, l4, l5, l6, rest.
  do 5 (split; [reflexivity|]).
  intros k. rewrite (load_rules_continue rest ∅ t E k).
  rewrite lookup_empty. reflexivity.
Qed.

(** X21: a loaded table never maps a key to an empty list of rules, and
    the accept list is never empty: in [bfs], [transitions.get] returns an
    empty list only for a key that no line of the file mentions. *)
Theorem read_file_no_empty_entry (lines : list string)
  (name start reject : string) (accept : list string) t :
  read_file lines = Loaded (name, start, accept, reject, t) →
  accept ≠ [] ∧ ∀ k moves, t !! k = Some moves → moves ≠ [].
Proof.
  intros H. apply read_file_loaded in H
    as (l0 & l1 & l2 & l3 & l4 & l5 & l6 & rest & -> & -> & -> & -> & -> & E).
  split; [apply split_nonempty|].
  intros k moves Hk. rewrite (load_rules_continue rest ∅ t E k) in Hk.
  rewrite lookup_empty in Hk. simpl in Hk.
  destruct (rules_for k rest); [discriminate|].
  injection Hk as <-. discriminate.
Qed.

(** Lines 2, 3 and 4 of the file are never read: replacing them
    changes nothing in the result, be it a machine or an exception. *)
Lemma read_file_ignores_lines (l0 l1 l2 l3 l1' l2' l3' : string)
  (rest : list string) :
  read_file (l0 :: l1 :: l2 :: l3 :: rest)
  = read_file (l0 :: l1' :: l2' :: l3' :: rest).
Proof. reflexivity. Qed.

(** X22: a blank line among the rule lines changes nothing. *)
Theorem read_file_blank_line (header pre post : list string) (blank : string) :
  length header = 7%nat →
  PyStr.strip blank = "" →
  read_file (header ++ pre ++ blank :: post)
  = read_file (header ++ pre ++ post).
Proof.
  intros Hlen Hblank.
  destruct header as [|l0 [|l1 [|l2 [|l3 [|l4 [|l5 [|l6 [|l7 h]]]]]]]];
    try discriminate.
  simpl app. rewrite !read_file_long, !for_each_app.
  destruct (for_each add_rule pre ∅) as [t|e]; [|reflexivity].
  rewrite for_each_cons, add_rule_cases.
  destruct (parse_rule blank) as [x|] eqn:E.
  - apply parse_rule_not_blank in E. by rewrite Hblank in E.
  - by rewrite Hblank.
Qed.

(** X23: rules accumulate in file order.  Adding at the end of a file that
    loads a line that parses as a rule appends that rule to the list of its
    key, after the rules already there, and changes nothing else. *)
Theorem read_file_append_rule (lines : list string) (line : string)
  (name start reject curr r : string) (accept : list string) (x : rule) t :
  read_file lines = Loaded (name, start, accept, reject, t) →
  parse_rule line = Some (curr, r, x) →
  read_file (lines ++ [line])
  = Loaded (name, start, accept, reject,
            <[(curr, r) := default [] (t !! (curr, r)) ++ [x]]> t).
Proof.
  intros H Hline. apply read_file_loaded in H
    as (l0 & l1 & l2 & l3 & l4 & l5 & l6 & rest & -> & -> & -> & -> & -> & E).
  simpl app. rewrite read_file_long, for_each_app, E.
  rewrite for_each_cons, add_rule_cases, Hline. reflexivity.
Qed.

Lemma rstrip_idempotent (s : string) :
  PyStr.rstrip (PyStr.rstrip s) = PyStr.rstrip s.
Proof.
  induction s as [|c r IH]; [reflexivity|].
  simpl. destruct (PyStr.rstrip r) as [|c' r'] eqn:E.
  - destruct (PyStr.isspace c) eqn:Hc; [reflexivity|]. simpl. by rewrite Hc.
  - change (PyStr.rstrip (String c (String c' r')))
      with (match PyStr.rstrip (String c' r') with
            | EmptyString =>
                if PyStr.isspace c then EmptyString else String c EmptyString
            | String _ _ as r'' => String c r''
            end).
    by rewrite IH.
Qed.

Lemma lstrip_shape (s : string) :
  PyStr.lstrip s = ""
  ∨ ∃ c r, PyStr.lstrip s = String c r ∧ PyStr.isspace c = false.
Proof.
  induction s as [|c r IH]; [by left|].
  simpl. destruct (PyStr.isspace c) eqn:Hc; [exact IH|].
  right. by exists c, r.
Qed.

Lemma strip_idempotent (s : string) :
  PyStr.strip (PyStr.strip s) = PyStr.strip s.
Proof.
  unfold PyStr.strip.
  destruct (lstrip_shape s) as [-> | (c & r & -> & Hc)]; [reflexivity|].
  assert (∃ r', PyStr.rstrip (String c r) = String c r') as [r' Hr'].
  { simpl. destruct (PyStr.rstrip r); rewrite ?Hc; by eexists. }
  rewrite Hr' at 1. simpl PyStr.lstrip. rewrite Hc, <- Hr'.
  apply rstrip_idempotent.
Qed.

Lemma add_rule_strip t line : add_rule t (PyStr.strip line) = add_rule t line.
Proof. unfold add_rule. by rewrite strip_idempotent. Qed.

Lemma load_rules_strip (ls : list string) t :
  for_each add_rule (PyStr.strip <$> ls) t = for_each add_rule ls t.
Proof.
  revert t. induction ls as [|line ls IH]; intros t; [reflexivity|].
  rewrite fmap_cons, !for_each_cons, add_rule_strip.
  destruct (add_rule t line); [apply IH | reflexivity].
Qed.

(** X24: white space at the two ends of a line never matters: stripping
    every line of the file before it is loaded gives the same machine or
    the same exception.  A carriage return before the end of line is
    white space of this kind. *)
Theorem read_file_strips_lines (lines : list string) :
  read_file (PyStr.strip <$> lines) = read_file lines.
Proof.
  destruct (decide (length lines < 7)%nat) as [Hlt | Hge].
  - rewrite !read_file_short; [done.. | by rewrite length_fmap].
  - destruct (long_lines lines)
      as (l0 & l1 & l2 & l3 & l4 & l5 & l6 & rest & ->); [lia|].
    rewrite !fmap_cons, !read_file_long, load_rules_strip,
      !strip_idempotent.
    reflexivity.
Qed.

(** X25: loading and running compose.  When the write field of every rule
    line of a file that loads is non-empty, [bfs] on the loaded machine
    never raises [IndexError], whatever the input string and the bound. *)
Theorem loaded_machine_never_raises (lines : list string)
  (name start reject : string) (accept : list string) t
  (fuel : nat) (input : string) (max_steps : Z) :
  read_file lines = Loaded (name, start, accept, reject, t) →
  (∀ line curr r next_state w direction,
     line ∈ drop 7 lines →
     parse_rule line = Some (curr, r, (next_state, w, direction)) →
     w ≠ "") →
  bfs fuel start accept reject t input max_steps ≠ IndexError.
Proof.
  intros H Hw. apply read_file_loaded in H
    as (l0 & l1 & l2 & l3 & l4 & l5 & l6 & rest & -> & -> & -> & -> & -> & E).
  simpl drop in Hw. apply bfs_no_index_error.
  intros k moves x Hk Hx.
  rewrite (load_rules_continue rest ∅ t E k), lookup_empty in Hk.
  simpl in Hk.
  assert (Hin : x ∈ rules_for k rest).
  { destruct (rules_for k rest); [discriminate|]. by injection Hk as <-. }
  apply list_elem_of_omap in Hin as (line & Hline & Hrule).
  unfold rule_for in Hrule.
  destruct (parse_rule line) as [[[curr r] y]|] eqn:Ep; [|discriminate].
  destruct (decide ((curr, r) = k)); [|discriminate].
  injection Hrule as ->. destruct x as [[ns w] d].
  by apply (Hw line curr r ns w d).
Qed.

End loading.

Lemma read_file_value_error_witness :
  read_file (sample_lines ++ ["q0,a,q1"]) = LoadValueError.
Proof.
  apply (read_file_value_error (sample_lines ++ ["q0,a,q1"])).
  - simpl. lia.
  - exists "q0,a,q1". split.
    + simpl. do 4 right. left.
    + split; [discriminate|]. simpl. lia.
Defined.

Lemma read_file_table_witness :
  ∃ l0 l1 l2 l3 l4 l5 l6 rest,
    sample_lines = l0 :: l1 :: l2 :: l3 :: l4 :: l5 :: l6 :: rest
    ∧ "detour" = PyStr.strip l0 ∧ "q0" = PyStr.strip l4
    ∧ ["qa"] = PyStr.split "," (PyStr.strip l5)
    ∧ "qr" = PyStr.strip l6
    ∧ ∀ k, Samples.detour !! k = match rules_for k rest with
                                 | [] => None
                                 | rs => Some rs
                                 end.
Proof.
  apply (read_file_table sample_lines "detour" "q0" "qr" ["qa"]
           Samples.detour).
  vm_compute. reflexivity.
Defined.

Lemma read_file_no_empty_entry_witness :
  ["qa"] ≠ ([] : list string)
  ∧ ∀ k moves, Samples.detour !! k = Some moves → moves ≠ [].
Proof.
  apply (read_file_no_empty_entry sample_lines "detour" "q0" "qr" ["qa"]
           Samples.detour).
  vm_compute. reflexivity.
Defined.

Lemma read_file_blank_line_witness :
  read_file (take 7 sample_lines ++ [] ++ " " :: drop 7 sample_lines)
  = read_file (take 7 sample_lines ++ [] ++ drop 7 sample_lines).
Proof.
  apply (read_file_blank_line (take 7 sample_lines) []
           (drop 7 sample_lines) " "); reflexivity.
Defined.

Lemma read_file_append_rule_witness :
  read_file (sample_lines ++ ["q1,_,q1,_,L"])
  = Loaded ("detour", "q0", ["qa"], "qr",
            <[("q1", "_") := default [] (Samples.detour !! ("q1", "_"))
                             ++ [("q1", "_", "L")]]> Samples.detour).
Proof.
  apply (read_file_append_rule sample_lines "q1,_,q1,_,L" "detour" "q0"
           "qr" "q1" "_" ["qa"] ("q1", "_", "L") Samples.detour).
  - vm_compute. reflexivity.
  - reflexivity.
Defined.

Lemma loaded_machine_never_raises_witness :
  bfs 5 "q0" ["qa"] "qr" Samples.detour "a" 2 ≠ IndexError.
Proof.
  apply (loaded_machine_never_raises sample_lines "detour" "q0" "qr" ["qa"]
           Samples.detour 5 "a" 2).
  - vm_compute. reflexivity.
  - intros line curr r ns w d Hline Hp.
    simpl in Hline.
    repeat (apply elem_of_cons in Hline as [-> | Hline];
            [vm_compute in Hp; try discriminate Hp;
             injection Hp as <- <- <- <- <-; discriminate|]).
    inversion Hline.
Defined.

(** * The length of a reconstructed path *)

Section trace_bound.

Variable parent : gmap config config.

(** The fuel a walk needs is its length minus one. *)
Lemma ancestry_enough_fuel (fuel : nat) (t : config) (l : list config) :
  ancestry fuel parent t = Val l →
  ancestry (length l - 1) parent t = Val l.
Proof.
  revert t l. induction fuel as [|fuel IH]; intros t l H; simpl in H.
  - destruct (parent !! t) as [p|] eqn:E; [discriminate|].
    injection H as <-. simpl. by rewrite E.
  - destruct (parent !! t) as [p|] eqn:E.
    + destruct (ancestry fuel parent p) as [l0| |] eqn:E0; try discriminate.
      injection H as <-. apply IH in E0.
      assert (Hl0 : l0 ≠ []).
      { intros ->. simpl in E0. destruct (parent !! p); discriminate. }
      destruct l0 as [|x l0]; [done|].
      simpl length in *. replace (S (S (length l0)) - 1)%nat
        with (S (S (length l0) - 1)) by lia.
      simpl. rewrite E. simpl in E0. rewrite Nat.sub_0_r in E0.
      rewrite Nat.sub_0_r. by rewrite E0.
    + injection H as <-. simpl. by rewrite E.
Qed.

(** All the configurations of a walk but the last are keys of the map. *)
Lemma ancestry_keys (fuel : nat) (t : config) (l0 : list config)
  (root : config) :
  ancestry fuel parent t = Val (l0 ++ [root]) →
  ∀ x, x ∈ l0 → x ∈ dom parent.
Proof.
  intros H x Hx.
  destruct (ancestry_shape parent fuel t _ H) as (_ & _ & Hlink & _).
  apply list_elem_of_lookup in Hx as [i Hi].
  assert (is_Some ((l0 ++ [root]) !! S i)) as [p Hp].
  { apply lookup_lt_is_Some_2. apply lookup_lt_Some in Hi.
    rewrite length_app. simpl. lia. }
  apply elem_of_dom. exists p.
  apply (Hlink i); [by apply lookup_app_l_Some | exact Hp].
Qed.

(** X26: the loop of [trace] either ends within as many iterations as the
    parent map has entries, or never ends: a path that is returned holds
    at most one configuration more than the map has entries, and is
    returned as soon as the fuel is the number of entries. *)
Theorem trace_within_map_size (fuel : nat) (t : config)
  (path : list config) :
  trace fuel t parent = Val path →
  (length path ≤ S (size parent))%nat
  ∧ trace (size parent) t parent = Val path.
Proof.
  rewrite !trace_ancestry.
  destruct (ancestry fuel parent t) as [l| |] eqn:E; try discriminate.
  intros H. injection H as <-. rewrite length_reverse.
  assert (Hlen : (length l ≤ S (size parent))%nat).
  { destruct (ancestry_shape parent fuel t l E)
      as (_ & (root & Hroot & _) & _ & _).
    apply last_Some in Hroot as [l0 ->].
    pose proof (ancestry_nodup parent fuel t _ E) as Hnd.
    apply NoDup_app in Hnd as (Hnd & _ & _).
    rewrite length_app. simpl.
    assert (length l0 ≤ size parent)%nat; [|lia].
    rewrite <- (size_dom (D := gset config) parent).
    rewrite <- (size_list_to_set (C := gset config) l0) by exact Hnd.
    apply subseteq_size. intros x Hx. apply elem_of_list_to_set in Hx.
    by eapply ancestry_keys. }
  split; [exact Hlen|].
  apply ancestry_enough_fuel in E.
  rewrite (ancestry_more_fuel parent _ (size parent) t l E) by lia.
  reflexivity.
Qed.

End trace_bound.

Lemma trace_within_map_size_witness :
  (length [("", "q0", "a"); ("a", "q1", "_")]
   ≤ S (size ({[ ("a", "q1", "_") := ("", "q0", "a") ]}
                : gmap config config)))%nat
  ∧ trace (size ({[ ("a", "q1", "_") := ("", "q0", "a") ]}
                   : gmap config config))
      ("a", "q1", "_") {[ ("a", "q1", "_") := ("", "q0", "a") ]}
    = Val [("", "q0", "a"); ("a", "q1", "_")].
Proof.
  apply (trace_within_map_size {[ ("a", "q1", "_") := ("", "q0", "a") ]} 5
           ("a", "q1", "_")).
  vm_compute. reflexivity.
Defined.

(** * Runs in which no configuration comes back at another level *)

Section no_repeat.

Variables (start : string) (accept : list string) (reject : string).
Variable transitions : gmap (string * string) (list rule).
Variable input : string.

Local Abbreviation level_at := (level start reject transitions input).
Local Abbreviation front := (frontier_at start reject transitions input).
Local Abbreviation gen := (generated start reject transitions input).
Local Abbreviation parents := (parents_upto start reject transitions input).
Local Abbreviation defined_upto m :=
  (∀ j : nat, (j ≤ m)%nat → level_at j = Val (front j)).
Local Abbreviation quiet_below m :=
  (∀ (j : nat) (c : config), (j < m)%nat → c ∈ front j → ¬ accepting accept c).

(** Two ways to split a list around one element. *)
Lemma split_compare {A : Type} (pre pre' post post' : list A) (c c' : A) :
  pre ++ c :: post = pre' ++ c' :: post' →
  (pre = pre' ∧ c = c' ∧ post = post') ∨ c ∈ pre' ∨ c' ∈ pre.
Proof.
  revert pre'. induction pre as [|x pre IH]; intros [|x' pre'] H;
    simpl in H.
  - injection H as -> ->. by left.
  - injection H as -> _. right. left. by left.
  - injection H as -> _. right. right. by left.
  - injection H as -> H. destruct (IH pre' H) as [(-> & -> & ->) | [Hc | Hc]].
    + by left.
    + right. left. by right.
    + right. right. by right.
Qed.

(** An entry written while levels below [m] were expanded links a
    configuration of some level to one of the level before. *)
Lemma parents_levels (m : nat) :
  defined_upto m →
  ∀ x p, parents m !! x = Some p →
         ∃ j : nat, (j < m)%nat ∧ p ∈ front j ∧ x ∈ front (S j).
Proof.
  induction m as [|m IH]; intros Hdef.
  - intros x p H. simpl in H. by rewrite lookup_empty in H.
  - simpl. apply scan_parents_sound.
    + intros x p H. destruct (IH (λ j Hj, Hdef j (Nat.le_le_succ_r _ _ Hj)) x p H)
        as (j & Hj & Hp & Hx).
      exists j. split; [lia | done].
    + intros t cs x Ht E Hx. exists m. split; [lia|]. split; [exact Ht|].
      destruct (level_defined_before start reject transitions input m
                  (front (S m))) as [_ Hnext]; [by apply Hdef|].
      by eapply next_level_contains.
Qed.

Lemma scan_levels (m : nat) (pre post cs : list config) :
  defined_upto m → front m = pre ++ post →
  next_level reject transitions pre = Val cs →
  ∀ x p,
    scan_parents reject transitions pre (parents m) !! x = Some p →
    (∃ j : nat, (j < m)%nat ∧ p ∈ front j ∧ x ∈ front (S j))
    ∨ (p ∈ front m ∧ x ∈ cs).
Proof.
  intros Hdef Hfr Hnext. apply scan_parents_sound.
  - intros x p H. left. by apply parents_levels.
  - intros t ps x Ht E Hx. right. split.
    + rewrite Hfr. apply elem_of_app. by left.
    + by eapply next_level_contains.
Qed.

(** [bfs] hands the first accepting configuration of the shallowest level
    that has one to [trace], with the parent map of that moment. *)
Lemma bfs_accepts_at (fuel : nat) (max_steps : Z) (m : nat)
  (pre post cs : list config) (c : config) :
  Z.of_nat m < max_steps →
  defined_upto m → quiet_below m →
  front m = pre ++ c :: post →
  (∀ x, x ∈ pre → ¬ accepting accept x) →
  next_level reject transitions pre = Val cs →
  accepting accept c →
  bfs fuel start accept reject transitions input max_steps
  = (path ← trace fuel c (scan_parents reject transitions pre (parents m));
     mret (true, Z.of_nat m, gen m + Z.of_nat (length cs), path)).
Proof.
  intros Hm Hdef Hq Hfr Hpre Hnext Hc.
  assert (Hcm : c ∈ front m).
  { rewrite Hfr. apply elem_of_app. right. by left. }
  destruct (bfs_cases start accept reject transitions input fuel max_steps)
    as [(n & Hn & _ & _ & Hq' & _)
       | (m' & Hm' & Hdef' & Hq' & _ & Hcases)]; [lia | |].
  { exfalso. apply (Hq' m c); [lia | done..]. }
  destruct (Nat.lt_trichotomy m' m) as [Hlt | [-> | Hgt]].
  - exfalso.
    destruct Hcases as [[Hf _] | (pre' & c' & post' & cs' & Hf & _ & _ & Hr)].
    + pose proof (level_empty_stays start reject transitions input m'
                    (m - m')) as Hz.
      rewrite (Hdef m'), Hf in Hz by lia. specialize (Hz eq_refl).
      replace (m' + (m - m'))%nat with m in Hz by lia.
      apply (front_defined start reject transitions input) in Hz.
      rewrite Hz in Hfr. by destruct pre.
    + assert (Hc' : c' ∈ front m').
      { rewrite Hf. apply elem_of_app. right. by left. }
      destruct Hr as [[Hacc _] | (_ & He & _)].
      * by apply (Hq m' c').
      * destruct (level_defined_before start reject transitions input m'
                    (front (S m'))) as [_ Hn']; [apply Hdef; lia|].
        destruct (next_level_all_expand reject transitions _ _ c' Hn' Hc')
          as [ps Hps].
        rewrite Hps in He. discriminate.
  - destruct Hcases as [[Hf _] | (pre' & c' & post' & cs' & Hf & Hp' & Hn' & Hr)].
    { rewrite Hf in Hfr. by destruct pre. }
    rewrite Hfr in Hf.
    destruct (split_compare _ _ _ _ _ _ Hf) as [(<- & <- & <-) | [Hin | Hin]].
    + rewrite Hnext in Hn'. injection Hn' as <-.
      destruct Hr as [[_ Hr] | (Hnc & _)]; [exact Hr | done].
    + exfalso. by apply (Hp' c).
    + exfalso. destruct Hr as [[Hacc _] | (_ & He & _)].
      * by apply (Hpre c').
      * destruct (next_level_all_expand reject transitions _ _ c' Hnext Hin)
          as [ps Hps].
        rewrite Hps in He. discriminate.
  - exfalso. apply (Hq' m c); [lia | done..].
Qed.

(** X27: when no configuration occurs at two different levels, among
    levels 0 to [m] and the successors generated while level [m] is
    scanned up to its first accepting configuration, the parent map links
    every level to the one before it: [trace] returns within [m]
    iterations and the path reported with depth [m] holds exactly [m + 1]
    configurations. *)
Theorem bfs_accepts_exact (fuel : nat) (max_steps : Z) (m : nat)
  (pre post cs : list config) (c : config) :
  Z.of_nat m < max_steps →
  (∀ j : nat, (j ≤ m)%nat → ∃ fr, level_at j = Val fr) →
  (∀ (j : nat) (x : config), (j < m)%nat → x ∈ front j →
     ¬ accepting accept x) →
  front m = pre ++ c :: post →
  (∀ x, x ∈ pre → ¬ accepting accept x) →
  next_level reject transitions pre = Val cs →
  accepting accept c →
  (∀ (i j : nat) (x : config),
     (i ≤ m)%nat → (j ≤ m)%nat → x ∈ front i → x ∈ front j → i = j) →
  (∀ (j : nat) (x : config), (j ≤ m)%nat → x ∈ front j → x ∉ cs) →
  (m ≤ fuel)%nat →
  ∃ path,
    bfs fuel start accept reject transitions input max_steps
    = Val (true, Z.of_nat m, gen m + Z.of_nat (length cs), path)
    ∧ length path = S m.
Proof.
  intros Hm Hdef0 Hq Hfr Hpre Hnext Hc Hlevels Hfresh Hfuel.
  assert (Hdef : defined_upto m).
  { intros j Hj. destruct (Hdef0 j Hj) as [fr Hfr'].
    by eapply level_front. }
  rewrite (bfs_accepts_at fuel max_steps m pre post cs c) by done.
  set (par := scan_parents reject transitions pre (parents m)).
  assert (Hwalk : ∀ (j : nat) (x : config) (f : nat),
            (j ≤ m)%nat → x ∈ front j → (j ≤ f)%nat →
            ∃ l, ancestry f par x = Val l ∧ length l = S j).
  { induction j as [|j IHj]; intros x f Hj Hx Hf.
    - assert (Hnone : par !! x = None).
      { destruct (par !! x) as [p|] eqn:E; [|done]. exfalso.
        destruct (scan_levels m pre (c :: post) cs Hdef Hfr Hnext x p E)
          as [(i & Hi & _ & Hxi) | [_ Hxc]].
        - by specialize (Hlevels 0%nat (S i) x (Nat.le_0_l _) Hi Hx Hxi).
        - by apply (Hfresh 0%nat x). }
      exists [x]. split; [|done]. destruct f; simpl; by rewrite Hnone.
    - destruct (parents_keys start reject transitions input m (S j) x)
        as [p0 Hp0]; [done | lia | done |].
      destruct (scan_parents_mono reject transitions pre (parents m) x)
        as [p Hp]; [by eexists|]. fold par in Hp.
      destruct (scan_levels m pre (c :: post) cs Hdef Hfr Hnext x p Hp)
        as [(i & Hi & Hpi & Hxi) | [_ Hxc]].
      + assert (i = j) as ->.
        { specialize (Hlevels (S j) (S i) x Hj Hi Hx Hxi). lia. }
        destruct f as [|f]; [lia|].
        destruct (IHj p f) as (l & Hl & Hlen); [lia | done | lia|].
        exists (x :: l). split; [|simpl; lia].
        simpl. by rewrite Hp, Hl.
      + exfalso. by apply (Hfresh (S j) x). }
  destruct (Hwalk m c fuel) as (l & Hl & Hlen); [lia | | lia |].
  { rewrite Hfr. apply elem_of_app. right. by left. }
  rewrite trace_ancestry, Hl. exists (reverse l).
  split; [reflexivity | by rewrite length_reverse].
Qed.

End no_repeat.

Lemma bfs_accepts_exact_witness :
  ∃ path,
    bfs 3 "even" ["yes"] "no" Samples.even_ones "11" 10
    = Val (true, Z.of_nat 3,
           generated "even" "no" Samples.even_ones "11" 3
           + Z.of_nat (length ([] : list config)), path)
    ∧ length path = 4%nat.
Proof.
  apply (bfs_accepts_exact "even" ["yes"] "no" Samples.even_ones "11"
           3 10 3 [] [] [] ("11_", "yes", "_")).
  - lia.
  - intros j Hj.
    destruct j as [|[|[|[|j]]]]; [eexists; vm_compute; reflexivity.. | lia].
  - intros j x Hj Hx.
    destruct j as [|[|[|j]]]; [| | |lia]; vm_compute in Hx;
      apply list_elem_of_singleton in Hx as ->;
      intros H; apply list_elem_of_singleton in H; discriminate H.
  - vm_compute. reflexivity.
  - intros x Hx. inversion Hx.
  - reflexivity.
  - unfold accepting. simpl. apply list_elem_of_here.
  - intros i j x Hi Hj Hxi Hxj.
    destruct i as [|[|[|[|i]]]]; [| | | |lia];
      (destruct j as [|[|[|[|j]]]]; [| | | |lia]);
      try reflexivity; exfalso; vm_compute in Hxi, Hxj;
      apply list_elem_of_singleton in Hxi as ->;
      apply list_elem_of_singleton in Hxj; discriminate Hxj.
  - intros j x _ _ H. inversion H.
  - lia.
Defined.

(** * An accepting reject state *)

Section accepting_reject.

(** C10 fails on the code: with the machine [pingpong], the input "ab" and
    "qa" both the accepting and the reject state, the configuration
    ("", "qa", "ab") of level 2 is not pruned: the check of line 101 comes
    first, so scanning it leaves the loop through the accepting [return]
    and calls [trace].  But the parent map holds the cycle between
    ("", "q0", "ab") and ("a", "q1", "b"), so [trace] never returns: for
    every number of iterations allowed, [bfs] has not terminated with an
    accepted result. *)
Theorem accepting_reject_state_hangs (fuel : nat) :
  level "q0" "qa" Samples.pingpong "ab" 2
  = Val [("", "q0", "ab"); ("", "qa", "ab")]
  ∧ state_of ("", "qa", "ab") ∈ ["qa"]
  ∧ state_of ("", "qa", "ab") = "qa"
  ∧ (∀ (depth : nat) (s : bfs_state),
       visit fuel ["qa"] "qa" Samples.pingpong depth s ("", "qa", "ab")
       = Return (path ← trace fuel ("", "qa", "ab") (before s);
                 mret (true, Z.of_nat depth, total s, path)))
  ∧ bfs fuel "q0" ["qa"] "qa" Samples.pingpong "ab" 3
    = (path ← trace fuel ("", "qa", "ab") Samples.pingpong_parents;
       mret (true, 2, 4, path))
  ∧ trace fuel ("", "qa", "ab") Samples.pingpong_parents = OutOfFuel
  ∧ bfs fuel "q0" ["qa"] "qa" Samples.pingpong "ab" 3 = OutOfFuel.
Proof.
  assert (Hbfs : bfs fuel "q0" ["qa"] "qa" Samples.pingpong "ab" 3
                 = (path ← trace fuel ("", "qa", "ab")
                             Samples.pingpong_parents;
                    mret (true, 2, 4, path))).
  { vm_compute. reflexivity. }
  assert (Htrace : trace fuel ("", "qa", "ab") Samples.pingpong_parents
                   = OutOfFuel).
  { apply (trace_cycle _ _ ("", "q0", "ab") ("a", "q1", "b"));
      reflexivity. }
  split; [vm_compute; reflexivity|].
  split; [apply list_elem_of_here|].
  split; [reflexivity|].
  split.
  { intros depth s. apply visit_accepting. apply list_elem_of_here. }
  split; [exact Hbfs|].
  split; [exact Htrace|].
  rewrite Hbfs, Htrace. reflexivity.
Qed.

End accepting_reject.
